(** * Flappy Elon: the game core of [src/App.tsx]

    The component keeps its state in React hooks: seven [useState] cells
    and the ref [lastPipeRef].  The development gathers them in one record,
    [Game], and writes the three pieces of code that change them as
    functions on that record:

    - [jump]      the input handler (lines 30-45);
    - [gameLoop]  the body of one animation frame (lines 61-86);
    - [evaluate]  the collision and scoring effect (lines 98-132).

    What the closures capture is kept as the source has it.  [gameLoop]
    gives updaters of the current cells to [setBirdVelocity], [setBirdY] and
    [setPipes], but the velocity it adds to the position and turns into a
    rotation is [birdVelocity] of the render that created the closure; the
    effect reads [score] and [highScore] from its render, writes
    [pipe.passed] in the objects of the array and queues
    [setScore(s => s + 1)].  [Math.random()] is an argument of the frame.

    JavaScript numbers are modelled by exact rationals ([Q]): the properties
    are about comparisons and about the order in which the cells are read
    and written, and none of them depends on rounding. *)

From Stdlib Require Import QArith Qminmax ZArith List Bool Lia Lqa.
From Stdlib Require String.
Import ListNotations.
Import String.StringSyntax.
Delimit Scope string_scope with string.

Open Scope Q_scope.

(** ** Numbers and comparisons *)

(** The [number] type of the source. *)
Abbreviation number := Q (only parsing).

(** [a < b] and [a <= b] of the source, as booleans. *)
Definition ltb (a b : number) : bool :=
  match a ?= b with Lt => true | _ => false end.

Definition leb (a b : number) : bool :=
  match a ?= b with Gt => false | _ => true end.

Infix "<?" := ltb (at level 70, no associativity) : Q_scope.
Infix "<=?" := leb (at level 70, no associativity) : Q_scope.

(** ** Data model (lines 4-28) *)

Record Pipe : Set := mkPipe {
  x : number;
  gapY : number;
  passed : bool
}.

Definition GRAVITY : number := 6 # 10.
Definition JUMP_FORCE : number := -10.
Definition PIPE_WIDTH : number := 80.
Definition PIPE_GAP : number := 180.
Definition PIPE_SPEED : number := 4.
Definition BIRD_SIZE : number := 50.
Definition GAME_WIDTH : number := 400.
Definition GAME_HEIGHT : number := 600.

Inductive GameState : Set := idle | playing | dead.

Definition GameState_eqb (a b : GameState) : bool :=
  match a, b with
  | idle, idle | playing, playing | dead, dead => true
  | _, _ => false
  end.

(** The hooks of the component.  [lastPipe] is [lastPipeRef.current]. *)
Record Game : Set := mkGame {
  gameState : GameState;
  birdY : number;
  birdVelocity : number;
  pipes : list Pipe;
  score : Z;
  highScore : Z;
  birdRotation : number;
  lastPipe : number
}.

(** The values the hooks are created with (lines 20-28). *)
Definition initial : Game :=
  {| gameState := idle;
     birdY := GAME_HEIGHT / 2;
     birdVelocity := 0;
     pipes := [];
     score := 0%Z;
     highScore := 0%Z;
     birdRotation := 0;
     lastPipe := 0 |}.

(** ** Input handler (lines 30-45) *)

Definition jump (s : Game) : Game :=
  match gameState s with
  | idle =>
      {| gameState := playing;
         birdY := birdY s;
         birdVelocity := JUMP_FORCE;
         pipes := pipes s;
         score := score s;
         highScore := highScore s;
         birdRotation := birdRotation s;
         lastPipe := lastPipe s |}
  | playing =>
      {| gameState := playing;
         birdY := birdY s;
         birdVelocity := JUMP_FORCE;
         pipes := pipes s;
         score := score s;
         highScore := highScore s;
         birdRotation := birdRotation s;
         lastPipe := lastPipe s |}
  | dead =>
      {| gameState := idle;
         birdY := GAME_HEIGHT / 2;
         birdVelocity := 0;
         pipes := [];
         score := 0%Z;
         highScore := highScore s;
         birdRotation := 0;
         lastPipe := lastPipe s |}
  end.

(** ** Simulation step (lines 58-95) *)

(** [{...pipe, x: pipe.x - PIPE_SPEED}] *)
Definition movePipe (pipe : Pipe) : Pipe :=
  {| x := x pipe - PIPE_SPEED; gapY := gapY pipe; passed := passed pipe |}.

(** [pipe.x > -PIPE_WIDTH] *)
Definition onScreen (pipe : Pipe) : bool := - PIPE_WIDTH <? x pipe.

(** The obstacle pushed at line 82; [random] is the value of
    [Math.random()]. *)
Definition newPipe (random : number) : Pipe :=
  {| x := GAME_WIDTH;
     gapY := random * (GAME_HEIGHT - PIPE_GAP - 150) + 75;
     passed := false |}.

(** One call of [gameLoop].  The closure is created by the effect of line 58
    and reads [birdVelocity] from the render that created it: this is the
    argument [closureVelocity].  [setBirdVelocity] alone is given an updater
    of the current cell. *)
Definition gameLoop (closureVelocity random : number) (s : Game) : Game :=
  let newPipes := filter onScreen (map movePipe (pipes s)) in
  let current := lastPipe s + PIPE_SPEED in
  let spawn := 200 <? current in
  {| gameState := gameState s;
     birdY :=
       (let newY := birdY s + closureVelocity in
        Qmax 0 (Qmin (GAME_HEIGHT - BIRD_SIZE) newY));
     birdVelocity := birdVelocity s + GRAVITY;
     pipes := if spawn then newPipes ++ [newPipe random] else newPipes;
     score := score s;
     highScore := highScore s;
     birdRotation := Qmin 90 (Qmax (-30) (closureVelocity * 3));
     lastPipe := if spawn then 0 else current |}.

(** One animation frame.  The effect has [birdVelocity] among its
    dependencies, so the closure that runs was created by the latest render
    and its [birdVelocity] is the value of the cell when the frame starts.
    Nothing is scheduled unless the game is being played (line 59). *)
Definition frame (random : number) (s : Game) : Game :=
  match gameState s with
  | playing => gameLoop (birdVelocity s) random s
  | _ => s
  end.

(** ** Collision and scoring (lines 98-132) *)

Definition birdLeft : number := 80.
Definition birdRight : number := birdLeft + BIRD_SIZE.
Definition birdTop (y : number) : number := y.
Definition birdBottom (y : number) : number := y + BIRD_SIZE.

(** Line 107. *)
Definition hitsBoundary (y : number) : bool :=
  (birdTop y <=? 0) || (GAME_HEIGHT <=? birdBottom y).

(** Line 118. *)
Definition overlaps (pipe : Pipe) : bool :=
  (x pipe <? birdRight) && (birdLeft <? x pipe + PIPE_WIDTH).

(** Line 119. *)
Definition outsideGap (y : number) (pipe : Pipe) : bool :=
  (birdTop y <? gapY pipe) || (gapY pipe + PIPE_GAP <? birdBottom y).

Definition hitsPipe (y : number) (pipe : Pipe) : bool :=
  overlaps pipe && outsideGap y pipe.

(** Line 127. *)
Definition justPassed (pipe : Pipe) : bool :=
  negb (passed pipe) && (x pipe + PIPE_WIDTH <? birdLeft).

(** [pipe.passed = true]: the object in the array is updated in place. *)
Definition markPassed (pipe : Pipe) : Pipe :=
  {| x := x pipe; gapY := gapY pipe; passed := true |}.

(** What the [for] loop of lines 114-131 leaves behind. *)
Record LoopResult : Set := mkLoop {
  hit : bool;          (* the loop returned at line 122 *)
  marked : list Pipe;  (* the array, with the flags written at line 128 *)
  gained : Z           (* the number of [setScore(s => s + 1)] queued *)
}.

Fixpoint pipeLoop (y : number) (ps : list Pipe) : LoopResult :=
  match ps with
  | [] => {| hit := false; marked := []; gained := 0 |}
  | pipe :: rest =>
      if hitsPipe y pipe then
        {| hit := true; marked := pipe :: rest; gained := 0 |}
      else
        let r := pipeLoop y rest in
        if justPassed pipe then
          {| hit := hit r;
             marked := markPassed pipe :: marked r;
             gained := gained r + 1 |}
        else
          {| hit := hit r; marked := pipe :: marked r; gained := gained r |}
  end.

(** [setGameState('dead'); if (score > highScore) setHighScore(score)], where
    [score] and [highScore] are the values of the render the effect belongs
    to. *)
Definition newHighScore (s : Game) : Z :=
  if (highScore s <? score s)%Z then score s else highScore s.

(** The effect of lines 98-132. *)
Definition evaluate (s : Game) : Game :=
  match gameState s with
  | playing =>
      if hitsBoundary (birdY s) then
        {| gameState := dead;
           birdY := birdY s;
           birdVelocity := birdVelocity s;
           pipes := pipes s;
           score := score s;
           highScore := newHighScore s;
           birdRotation := birdRotation s;
           lastPipe := lastPipe s |}
      else
        let r := pipeLoop (birdY s) (pipes s) in
        {| gameState := if hit r then dead else playing;
           birdY := birdY s;
           birdVelocity := birdVelocity s;
           pipes := marked r;
           score := score s + gained r;
           highScore := if hit r then newHighScore s else highScore s;
           birdRotation := birdRotation s;
           lastPipe := lastPipe s |}
  | _ => s
  end.

(** ** Runs of the component *)

(** One operation on the hooks: a key press or click, an animation frame
    with the value [Math.random()] would return, or a run of the collision
    effect. *)
Inductive step : Game -> Game -> Prop :=
  | step_jump : forall s, step s (jump s)
  | step_frame : forall random s, 0 <= random < 1 -> step s (frame random s)
  | step_evaluate : forall s, step s (evaluate s).

Inductive steps : Game -> Game -> Prop :=
  | steps_refl : forall s, steps s s
  | steps_snoc : forall s t u, steps s t -> step t u -> steps s u.

Definition reachable (s : Game) : Prop := steps initial s.

(** Frames in a row, one random value for each. *)
Definition frames (randoms : list number) (s : Game) : Game :=
  fold_left (fun t random => frame random t) randoms s.

(** ** The component as React runs it

    The collision effect has [birdY], [pipes], [gameState], [score] and
    [highScore] as dependencies: it runs after every render in which one of
    them has changed.  A frame always changes [pipes], so the effect runs
    after each frame; a key press changes one of the dependencies unless the
    game is being played, where it only writes [birdVelocity].  When the
    effect itself changes [score], [highScore] or [gameState] it runs once
    more, which changes nothing ([evaluate_idempotent] below). *)

Definition press (s : Game) : Game :=
  match gameState s with
  | playing => jump s
  | _ => evaluate (jump s)
  end.

Definition tick (random : number) (s : Game) : Game :=
  evaluate (frame random s).

Inductive played : Game -> Prop :=
  | played_initial : played initial
  | played_press : forall s, played s -> played (press s)
  | played_tick : forall random s,
      0 <= random < 1 -> played s -> played (tick random s).

(** ** Invariants of the obstacles and of the flight *)

(** Horizontal positions are multiples of four pixels. *)
Definition onLattice (a : number) : Prop :=
  exists k : Z, a == inject_Z (4 * k).

(** Consecutive obstacles are more than 200 pixels apart, in the order of
    the list. *)
Fixpoint spaced (ps : list Pipe) : Prop :=
  match ps with
  | [] => True
  | p :: rest => Forall (fun q => x p + 200 < x q) rest /\ spaced rest
  end.

(** What holds of the hooks after any operation, in any phase. *)
Record basic (s : Game) : Prop := mkBasic {
  basic_velocity : JUMP_FORCE <= birdVelocity s;
  basic_lastPipe : 0 <= lastPipe s <= 200;
  basic_spaced : spaced (pipes s);
  basic_placed : forall p : Pipe,
    In p (pipes s) ->
    x p + lastPipe s <= GAME_WIDTH /\ onLattice (x p) /\
    75 <= gapY p <= 345
}.

(** The number of frames an obstacle at a multiple of four pixels has been
    overlapping the bird: one at [x = 128], thirty-two at [x = 4]. *)
Definition overlapFrames (p : Pipe) : number := (132 - x p) / 4.

(** A bound on the velocity of a bird that has stayed below the gap top [g]
    for [n] frames: either it jumped during these frames, or it has fallen
    freely and the distance fallen is below its height under the gap top. *)
Definition fallBound (n y v g : number) : Prop :=
  v <= JUMP_FORCE + GRAVITY * n \/
  (n - 1) * v - (3 # 10) * n * (n - 1) <= y - g.

(** What an obstacle allows of a bird at height [y] with velocity [v] once
    the effect has run and the game goes on. *)
Record safe (y v : number) (p : Pipe) : Prop := mkSafe {
  safe_passed : x p < 0 -> passed p = true;
  safe_leaving : x p == 0 -> 65 <= y /\ y + v < 550;
  safe_inside : 0 < x p < 130 ->
    gapY p <= y /\ y + BIRD_SIZE <= gapY p + PIPE_GAP /\
    fallBound (overlapFrames p) y v (gapY p)
}.

(** The invariant of the states of [played]. *)
Record sound (s : Game) : Prop := mkSound {
  sound_basic : basic s;
  sound_idle : gameState s = idle -> pipes s = [] /\ birdY s == 300;
  sound_playing : gameState s = playing ->
    0 < birdY s < 550 /\
    forall p : Pipe, In p (pipes s) -> safe (birdY s) (birdVelocity s) p
}.

(** ** The obstacles through the effect and the frame *)

(** The element the loop leaves at the place of an obstacle it has gone
    through. *)
Definition settled (pipe : Pipe) : Pipe :=
  if justPassed pipe then markPassed pipe else pipe.

(** The same obstacle, before and after a run of the loop: the flag may
    only have gone from [false] to [true]. *)
Definition sameObstacle (p q : Pipe) : Prop :=
  x q = x p /\ gapY q = gapY p /\ (passed p = true -> passed q = true).

Definition allOnScreen (s : Game) : Prop :=
  Forall (fun a => - PIPE_WIDTH < a) (map x (pipes s)).

(** ** Sample states *)

(** A round lost on the floor, with one obstacle on screen and a score of
    three. *)
Definition lostRound : Game :=
  {| gameState := dead;
     birdY := 550;
     birdVelocity := 12;
     pipes := [ {| x := 200; gapY := 100; passed := false |} ];
     score := 3%Z;
     highScore := 3%Z;
     birdRotation := 36;
     lastPipe := 200 |}.

(** The bird ten pixels above the floor, falling at twenty pixels a frame. *)
Definition nearFloor : Game :=
  {| gameState := playing;
     birdY := 540;
     birdVelocity := 20;
     pipes := [];
     score := 0%Z;
     highScore := 0%Z;
     birdRotation := 60;
     lastPipe := 40 |}.

(** Fifty frames after the last obstacle was spawned. *)
Definition spawnDue : Game :=
  {| gameState := playing;
     birdY := 300;
     birdVelocity := 0;
     pipes := [ {| x := 200; gapY := 100; passed := false |};
                {| x := -76; gapY := 200; passed := true |} ];
     score := 1%Z;
     highScore := 1%Z;
     birdRotation := 0;
     lastPipe := 200 |}.

(** A round with a score of five and a best score of three, lost on the
    floor; the run is the collision effect followed by a restart. *)
Definition beatenBest : Game :=
  {| gameState := playing;
     birdY := 550;
     birdVelocity := 14;
     pipes := [];
     score := 5%Z;
     highScore := 3%Z;
     birdRotation := 42;
     lastPipe := 120 |}.

(** An obstacle four pixels from the removal line, and the frame, the run of
    the effect and the frame that follow. *)
Definition leavingPipe : Pipe := {| x := -76; gapY := 200; passed := true |}.

(** The bird kept in the air by a jump whenever it is at or below 310, for
    [n] frames in which every obstacle spawned has its gap at 210. *)
Definition autopilot (s : Game) : Game :=
  if 310 <=? birdY s then press s else s.

Definition fly (n : nat) (s : Game) : Game :=
  Nat.iter n (fun t => tick (1 # 2) (autopilot t)) s.

(** A jump before every frame: the bird climbs ten pixels a frame. *)
Definition climb (n : nat) : Game :=
  Nat.iter n (fun t => tick 0 (press t)) initial.

(** A jump before every frame and no run of the collision effect: the bird
    goes up to the ceiling and stays there while the obstacles scroll. *)
Definition ceilingRun (n : nat) : Game :=
  Nat.iter n (fun t => frame (1 # 2) (jump t)) initial.

(** The flight of 150 frames from the first key press, and one frame more.
    The first obstacle is spawned at frame 51 and overlaps the bird from
    frame 119 to frame 150. *)
Definition flight150 : Game := fly 150 (press initial).

Abbreviation flight151 := (tick (1 # 2) (autopilot flight150)).

(** The first obstacle of the flight when it is at [x = 4], and when the
    frame after the 151st has taken it to [x = -4]. *)
Definition overlapping : Pipe :=
  {| x := 4; gapY := 420 # 2; passed := false |}.

Definition leaving : Pipe :=
  {| x := -4; gapY := 420 # 2; passed := false |}.

(** What is read off a state [s] of the flight and off the state one frame
    later. *)
Definition flightRecord (s : Game) :=
  (fun u : Game =>
     (gameState s, pipes s,
      (gapY overlapping <=? birdY s),
      (birdY s + BIRD_SIZE <=? gapY overlapping + PIPE_GAP),
      gameState u, pipes (frame (1 # 2) u)))
    (tick (1 # 2) (autopilot s)).

Definition flightLog (s : Game) : Prop :=
  gameState s = playing /\
  pipes s = [ overlapping; {| x := 208; gapY := 420 # 2; passed := false |} ] /\
  gapY overlapping <= birdY s /\
  birdY s + BIRD_SIZE <= gapY overlapping + PIPE_GAP /\
  gameState (tick (1 # 2) (autopilot s)) = playing /\
  pipes (frame (1 # 2) (tick (1 # 2) (autopilot s))) =
    [ leaving; {| x := 200; gapY := 420 # 2; passed := false |} ].

(** ** Keyboard and pointer (lines 47-56 and 158) *)

(** [e.code === 'Space' || e.code === 'ArrowUp'] *)
Definition isJumpKey (code : String.string) : bool :=
  String.eqb code "Space" || String.eqb code "ArrowUp".

(** [handleKeyDown]: the hooks after the event, and whether
    [e.preventDefault()] was called. *)
Definition handleKeyDown (code : String.string) (s : Game) : Game * bool :=
  if isJumpKey code then (jump s, true) else (s, false).

(** The events the component listens to: [keydown] on the window and
    [onClick] on the game container, which is [jump] itself. *)
Inductive Event : Set :=
  | KeyDown (code : String.string)
  | Click.

Definition handleEvent (e : Event) (s : Game) : Game :=
  match e with
  | KeyDown code => fst (handleKeyDown code s)
  | Click => jump s
  end.

Definition handleEvents (es : list Event) (s : Game) : Game :=
  fold_left (fun t e => handleEvent e t) es s.

Definition isJumpEvent (e : Event) : bool :=
  match e with
  | KeyDown code => isJumpKey code
  | Click => true
  end.

(** ** What is drawn (lines 134-251)

    The parts of the element tree that depend on the hooks: the two score
    values, the class names that are switched, the inline styles of the
    obstacles and of the bird, and the two overlays. *)

(** [style] of the top pipe of an obstacle (lines 171-174). *)
Record TopStyle : Set := mkTopStyle {
  topLeft : number;
  topHeight : number
}.

(** [style] of the bottom pipe of an obstacle (lines 185-189). *)
Record BottomStyle : Set := mkBottomStyle {
  bottomLeft : number;
  bottomTop : number;
  bottomHeight : number
}.

Definition topStyle (pipe : Pipe) : TopStyle :=
  {| topLeft := x pipe; topHeight := gapY pipe |}.

Definition bottomStyle (pipe : Pipe) : BottomStyle :=
  {| bottomLeft := x pipe;
     bottomTop := gapY pipe + PIPE_GAP;
     bottomHeight := GAME_HEIGHT - gapY pipe - PIPE_GAP |}.

Record View : Set := mkView {
  scoreValue : Z;              (* [{score}] at line 148 *)
  bestValue : Z;               (* [{highScore}] at line 152 *)
  glitch : bool;               (* class [glitch] of the container *)
  pipeViews : list (TopStyle * BottomStyle);
  birdTopPx : number;          (* [top: birdY] *)
  birdRotateDeg : number;      (* [rotate(${birdRotation}deg)] *)
  flapping : bool;             (* class [flapping] of the cape *)
  startOverlay : bool;         (* the overlay of lines 221-229 *)
  deathOverlay : option Z      (* the overlay of lines 231-240 and the
                                  score it prints *)
}.

Definition render (s : Game) : View :=
  {| scoreValue := score s;
     bestValue := highScore s;
     glitch := GameState_eqb (gameState s) dead;
     pipeViews := map (fun pipe => (topStyle pipe, bottomStyle pipe)) (pipes s);
     birdTopPx := birdY s;
     birdRotateDeg := birdRotation s;
     flapping := GameState_eqb (gameState s) playing;
     startOverlay := GameState_eqb (gameState s) idle;
     deathOverlay :=
       if GameState_eqb (gameState s) dead then Some (score s) else None |}.

(** ** The cadence of the obstacles *)

(** Consecutive obstacles are exactly 204 pixels apart, and the last one is
    [a] pixels left of the right edge of the playfield. *)
Fixpoint chainedTo (ps : list Pipe) (a : number) : Prop :=
  match ps with
  | [] => True
  | p :: rest =>
      match rest with
      | [] => x p + a == GAME_WIDTH
      | q :: _ => x q == x p + 204 /\ chainedTo rest a
      end
  end.

(** ** The flight of the bird *)

(** The quantity that a frame without clamping leaves unchanged, times 1.2:
    height minus the height the velocity stands for. *)
Definition energy (y v : number) : number :=
  (12 # 10) * y - v * v + (6 # 10) * v.

(** The velocity [k] frames after a jump. *)
Definition velocityAfter (k : Z) : number :=
  JUMP_FORCE + GRAVITY * inject_Z k.

(** What the frames after a jump from height [y0] keep. *)
Record rising (y0 : number) (t : Game) : Prop := mkRising {
  rising_playing : gameState t = playing;
  rising_inside : 0 <= birdY t <= GAME_HEIGHT - BIRD_SIZE;
  rising_velocity : exists k : Z, birdVelocity t == velocityAfter k;
  rising_energy :
    energy y0 JUMP_FORCE <= energy (birdY t) (birdVelocity t) \/
    (birdY t == GAME_HEIGHT - BIRD_SIZE /\ 0 <= birdVelocity t)
}.

(** ** The scores of a played game *)

(** The best score covers the score whenever no round is being played. *)
Definition bestCovers (s : Game) : Prop :=
  (0 <= highScore s)%Z /\
  (gameState s = idle -> score s = 0%Z) /\
  (gameState s = dead -> (score s <= highScore s)%Z).

(** * Properties *)

(** ** Comparisons *)

Lemma ltb_lt (a b : number) : (a <? b) = true <-> a < b.
Proof.
  unfold ltb. rewrite Qlt_alt.
  destruct (a ?= b); split; congruence.
Qed.

Lemma ltb_ge (a b : number) : (a <? b) = false <-> b <= a.
Proof.
  rewrite <- not_true_iff_false, ltb_lt.
  split; [apply Qnot_lt_le | apply Qle_not_lt].
Qed.

Lemma leb_le (a b : number) : (a <=? b) = true <-> a <= b.
Proof.
  unfold leb. rewrite Qle_alt.
  destruct (a ?= b); split; congruence.
Qed.

Lemma leb_gt (a b : number) : (a <=? b) = false <-> b < a.
Proof.
  rewrite <- not_true_iff_false, leb_le.
  split; [apply Qnot_le_lt | apply Qlt_not_le].
Qed.

(** [Math.max(lo, Math.min(hi, z))] stays between its bounds, and is [z]
    itself as soon as it is strictly between them. *)
Lemma clamp_bounds (lo hi z : number) :
  lo <= hi -> lo <= Qmax lo (Qmin hi z) <= hi.
Proof.
  intros Hlohi. split.
  - apply Q.le_max_l.
  - apply Q.max_lub; [exact Hlohi | apply Q.le_min_l].
Qed.

Ltac clamp_cases lo hi z :=
  let m := fresh "m" in
  let M := fresh "M" in
  generalize (Q.max_spec lo (Qmin hi z)) (Q.min_spec hi z);
  set (m := Qmin hi z); set (M := Qmax lo m); clearbody M; clearbody m;
  intros [[? ?] | [? ?]] [[? ?] | [? ?]]; intros; lra.

Lemma clamp_inside (lo hi z : number) :
  lo < Qmax lo (Qmin hi z) < hi -> Qmax lo (Qmin hi z) == z.
Proof.
  clamp_cases lo hi z.
Qed.

Lemma clamp_high (lo hi z : number) :
  lo <= hi -> hi <= z -> Qmax lo (Qmin hi z) == hi.
Proof.
  clamp_cases lo hi z.
Qed.

(** ** Lists *)

Section Lists.

Context {A B : Type}.

Lemma Forall2_origin (R : A -> B -> Prop) (l : list A) (l' : list B) (b : B) :
  Forall2 R l l' -> In b l' -> exists a : A, In a l /\ R a b.
Proof.
  induction 1 as [| a b' l l' Hab _ IH]; intros Hin; [destruct Hin |].
  destruct Hin as [<- | Hin].
  - exists a. split; [left; reflexivity | exact Hab].
  - destruct (IH Hin) as (a' & Ha' & Hr). exists a'. split; [right |]; auto.
Qed.

Lemma existsb_none (f : A -> bool) (l : list A) (a : A) :
  existsb f l = false -> In a l -> f a = false.
Proof.
  intros Hnone Hin. destruct (f a) eqn:Hfa; [| reflexivity].
  assert (Hyes : existsb f l = true) by (apply existsb_exists; eauto).
  congruence.
Qed.

End Lists.

(** ** What each operation leaves alone *)

Lemma frame_playing (random : number) (s : Game) :
  gameState s = playing -> frame random s = gameLoop (birdVelocity s) random s.
Proof. unfold frame. intros ->. reflexivity. Qed.

Lemma frame_gameState (random : number) (s : Game) :
  gameState (frame random s) = gameState s.
Proof. unfold frame. destruct (gameState s) eqn:E; simpl; congruence. Qed.

Lemma frame_highScore (random : number) (s : Game) :
  highScore (frame random s) = highScore s.
Proof. unfold frame. destruct (gameState s); reflexivity. Qed.

Lemma frame_score (random : number) (s : Game) :
  score (frame random s) = score s.
Proof. unfold frame. destruct (gameState s); reflexivity. Qed.

Lemma evaluate_birdY (s : Game) : birdY (evaluate s) = birdY s.
Proof.
  unfold evaluate.
  destruct (gameState s); try reflexivity.
  destruct (hitsBoundary (birdY s)); reflexivity.
Qed.

Lemma evaluate_birdVelocity (s : Game) :
  birdVelocity (evaluate s) = birdVelocity s.
Proof.
  unfold evaluate.
  destruct (gameState s); try reflexivity.
  destruct (hitsBoundary (birdY s)); reflexivity.
Qed.

Lemma evaluate_lastPipe (s : Game) : lastPipe (evaluate s) = lastPipe s.
Proof.
  unfold evaluate.
  destruct (gameState s); try reflexivity.
  destruct (hitsBoundary (birdY s)); reflexivity.
Qed.

Lemma jump_lastPipe (s : Game) : lastPipe (jump s) = lastPipe s.
Proof. unfold jump. destruct (gameState s); reflexivity. Qed.

Lemma jump_highScore (s : Game) : highScore (jump s) = highScore s.
Proof. unfold jump. destruct (gameState s); reflexivity. Qed.

Lemma hitsBoundary_true (y : number) :
  hitsBoundary y = true <-> y <= 0 \/ GAME_HEIGHT <= y + BIRD_SIZE.
Proof.
  unfold hitsBoundary, birdTop, birdBottom.
  rewrite orb_true_iff, !leb_le. reflexivity.
Qed.

Lemma hitsBoundary_false (y : number) :
  hitsBoundary y = false <-> 0 < y /\ y + BIRD_SIZE < GAME_HEIGHT.
Proof.
  unfold hitsBoundary, birdTop, birdBottom.
  rewrite orb_false_iff, !leb_gt. reflexivity.
Qed.

(** ** The position of the bird *)

Lemma playfield_center : 0 <= GAME_HEIGHT / 2 <= GAME_HEIGHT - BIRD_SIZE.
Proof. split; vm_compute; discriminate. Qed.

Lemma step_keeps_bird_inside (s t : Game) :
  step s t ->
  0 <= birdY s <= GAME_HEIGHT - BIRD_SIZE ->
  0 <= birdY t <= GAME_HEIGHT - BIRD_SIZE.
Proof.
  intros Hstep Hin. destruct Hstep as [s | random s _ | s].
  - unfold jump. destruct (gameState s); simpl;
      [exact Hin | exact Hin | exact playfield_center].
  - unfold frame. destruct (gameState s); simpl; try exact Hin.
    apply clamp_bounds. vm_compute. discriminate.
  - rewrite evaluate_birdY. exact Hin.
Qed.

(** ** Ceiling and floor *)

Lemma evaluate_boundary (s : Game) :
  gameState s = playing ->
  hitsBoundary (birdY s) = true ->
  gameState (evaluate s) = dead.
Proof.
  intros Hplay Hhit. unfold evaluate. rewrite Hplay, Hhit. reflexivity.
Qed.

(** ** Spawning obstacles *)

Lemma newPipe_gap_fits (random : number) :
  0 <= random < 1 ->
  75 <= gapY (newPipe random) /\
  gapY (newPipe random) + PIPE_GAP + 75 <= GAME_HEIGHT.
Proof.
  intros [Hlo Hhi]. unfold newPipe, GAME_HEIGHT, PIPE_GAP. simpl. lra.
Qed.

(** ** The best score *)

Lemma newHighScore_ge (s : Game) : (highScore s <= newHighScore s)%Z.
Proof.
  unfold newHighScore.
  destruct (Z.ltb_spec (highScore s) (score s)); lia.
Qed.

Lemma evaluate_highScore (s : Game) :
  highScore (evaluate s) =
    if GameState_eqb (gameState s) playing
       && GameState_eqb (gameState (evaluate s)) dead
    then newHighScore s
    else highScore s.
Proof.
  unfold evaluate.
  destruct (gameState s); simpl; try reflexivity.
  destruct (hitsBoundary (birdY s)); simpl; [reflexivity |].
  destruct (hit (pipeLoop (birdY s) (pipes s))); reflexivity.
Qed.

Lemma step_highScore (s t : Game) :
  step s t -> (highScore s <= highScore t)%Z.
Proof.
  intros [u | random u _ | u].
  - rewrite jump_highScore. lia.
  - rewrite frame_highScore. lia.
  - rewrite evaluate_highScore.
    destruct (_ && _); [apply newHighScore_ge | lia].
Qed.

(** ** The spawn accumulator across rounds *)

Lemma frames_snoc (randoms : list number) (random : number) (s : Game) :
  frames (randoms ++ [random]) s = frame random (frames randoms s).
Proof. unfold frames. rewrite fold_left_app. reflexivity. Qed.

(** As long as the accumulator has not exceeded 200, the frames of a round
    that starts without obstacles only advance it. *)
Lemma frames_before_first_spawn (randoms : list number) (s : Game) :
  gameState s = playing ->
  pipes s = [] ->
  lastPipe s + PIPE_SPEED * inject_Z (Z.of_nat (length randoms)) <= 200 ->
  gameState (frames randoms s) = playing /\
  pipes (frames randoms s) = [] /\
  lastPipe (frames randoms s) ==
    lastPipe s + PIPE_SPEED * inject_Z (Z.of_nat (length randoms)).
Proof.
  intros Hplay Hnone.
  induction randoms as [| random randoms IH] using rev_ind; intros Hdue.
  - simpl. repeat split; try assumption.
    unfold PIPE_SPEED, inject_Z. simpl. ring.
  - rewrite frames_snoc.
    rewrite length_app, Nat.add_comm in Hdue |- *. simpl length in *.
    rewrite Nat2Z.inj_succ in Hdue |- *.
    unfold Z.succ in Hdue |- *. rewrite inject_Z_plus in Hdue |- *.
    unfold PIPE_SPEED in *.
    change (inject_Z 1) with 1 in *.
    assert (Hnonneg : 0 <= inject_Z (Z.of_nat (length randoms))).
    { change 0 with (inject_Z 0). rewrite <- Zle_Qle. lia. }
    destruct IH as (IHplay & IHnone & IHlast); [lra |].
    rewrite (frame_playing _ _ IHplay). simpl.
    rewrite IHnone. simpl.
    assert (Hno : (200 <? lastPipe (frames randoms s) + PIPE_SPEED) = false).
    { apply ltb_ge. unfold PIPE_SPEED. rewrite IHlast. lra. }
    rewrite Hno. repeat split; try assumption.
    unfold PIPE_SPEED. rewrite IHlast. ring.
Qed.

(** ** Collision with an obstacle *)

Lemma overlaps_true (pipe : Pipe) :
  overlaps pipe = true <->
  x pipe < birdRight /\ birdLeft < x pipe + PIPE_WIDTH.
Proof. unfold overlaps. rewrite andb_true_iff, !ltb_lt. reflexivity. Qed.

Lemma outsideGap_false (y : number) (pipe : Pipe) :
  outsideGap y pipe = false <->
  gapY pipe <= y /\ y + BIRD_SIZE <= gapY pipe + PIPE_GAP.
Proof.
  unfold outsideGap, birdTop, birdBottom.
  rewrite orb_false_iff, !ltb_ge. reflexivity.
Qed.

Lemma hitsPipe_true (y : number) (pipe : Pipe) :
  hitsPipe y pipe = true <->
  (x pipe < birdRight /\ birdLeft < x pipe + PIPE_WIDTH) /\
  ~ (gapY pipe <= y /\ y + BIRD_SIZE <= gapY pipe + PIPE_GAP).
Proof.
  unfold hitsPipe.
  rewrite andb_true_iff, overlaps_true, <- outsideGap_false.
  rewrite not_false_iff_true. reflexivity.
Qed.

Lemma hitsPipe_false (y : number) (pipe : Pipe) :
  hitsPipe y pipe = false <->
  (x pipe < birdRight /\ birdLeft < x pipe + PIPE_WIDTH ->
   gapY pipe <= y /\ y + BIRD_SIZE <= gapY pipe + PIPE_GAP).
Proof.
  unfold hitsPipe.
  rewrite <- overlaps_true, <- outsideGap_false.
  destruct (overlaps pipe), (outsideGap y pipe); simpl;
    split; auto; intros H; discriminate (H eq_refl).
Qed.

(** The loop returns at line 122 exactly when some obstacle of the array
    satisfies the tests of lines 118-119. *)
Lemma pipeLoop_hit (y : number) (ps : list Pipe) :
  hit (pipeLoop y ps) = existsb (hitsPipe y) ps.
Proof.
  induction ps as [| pipe rest IH]; simpl; [reflexivity |].
  destruct (hitsPipe y pipe); simpl; [reflexivity |].
  destruct (justPassed pipe); simpl; exact IH.
Qed.

Lemma evaluate_gameState (s : Game) :
  gameState s = playing ->
  gameState (evaluate s) =
    if hitsBoundary (birdY s) || existsb (hitsPipe (birdY s)) (pipes s)
    then dead else playing.
Proof.
  intros Hplay. unfold evaluate. rewrite Hplay.
  destruct (hitsBoundary (birdY s)); simpl; [reflexivity |].
  rewrite pipeLoop_hit. reflexivity.
Qed.

(** ** What the frame and the effect do to the obstacles *)

(** Where an obstacle of the list comes from after a frame. *)
Lemma gameLoop_pipes_origin (v random : number) (s : Game) (q : Pipe) :
  In q (pipes (gameLoop v random s)) ->
  q = newPipe random \/
  exists p : Pipe,
    In p (pipes s) /\ q = movePipe p /\ - PIPE_WIDTH < x p - PIPE_SPEED.
Proof.
  simpl. intros Hin.
  assert (Hold : In q (filter onScreen (map movePipe (pipes s))) ->
                 exists p : Pipe,
                   In p (pipes s) /\ q = movePipe p
                   /\ - PIPE_WIDTH < x p - PIPE_SPEED).
  { intros Hq. apply filter_In in Hq. destruct Hq as [Hq Hon].
    apply in_map_iff in Hq. destruct Hq as (p & Hp & Hpin).
    exists p. subst q. repeat split; [exact Hpin |].
    apply ltb_lt in Hon. exact Hon. }
  destruct (200 <? lastPipe s + PIPE_SPEED).
  - apply in_app_or in Hin. destruct Hin as [Hin | [Hin | []]]; auto.
  - auto.
Qed.

Lemma settled_x (pipe : Pipe) : x (settled pipe) = x pipe.
Proof. unfold settled. destruct (justPassed pipe); reflexivity. Qed.

Lemma settled_gapY (pipe : Pipe) : gapY (settled pipe) = gapY pipe.
Proof. unfold settled. destruct (justPassed pipe); reflexivity. Qed.

Lemma settled_passed (pipe : Pipe) :
  passed (settled pipe) = passed pipe || (x pipe + PIPE_WIDTH <? birdLeft).
Proof.
  unfold settled, justPassed. destruct pipe as [a g flag]. simpl.
  destruct flag, (a + PIPE_WIDTH <? birdLeft); reflexivity.
Qed.

Lemma sameObstacle_refl (p : Pipe) : sameObstacle p p.
Proof. repeat split; auto. Qed.

Lemma sameObstacle_settled (p : Pipe) : sameObstacle p (settled p).
Proof.
  repeat split; [apply settled_x | apply settled_gapY |].
  rewrite settled_passed. intros ->. reflexivity.
Qed.

Lemma pipeLoop_marked (y : number) (ps : list Pipe) :
  Forall2 sameObstacle ps (marked (pipeLoop y ps)).
Proof.
  induction ps as [| pipe rest IH]; simpl; [constructor |].
  destruct (hitsPipe y pipe); simpl.
  - constructor; [apply sameObstacle_refl |].
    clear IH. induction rest; constructor;
      [apply sameObstacle_refl | assumption].
  - generalize (sameObstacle_settled pipe). unfold settled.
    destruct (justPassed pipe); simpl; intros Hsame;
      constructor; assumption.
Qed.

(** When the loop runs to its end, every obstacle has been gone through and
    the score has been raised once for each that passed the test of line
    127. *)
Lemma pipeLoop_no_hit (y : number) (ps : list Pipe) :
  existsb (hitsPipe y) ps = false ->
  pipeLoop y ps =
    {| hit := false;
       marked := map settled ps;
       gained := Z.of_nat (length (filter justPassed ps)) |}.
Proof.
  induction ps as [| pipe rest IH]; simpl; [reflexivity |].
  intros Hnone. apply orb_false_iff in Hnone. destruct Hnone as [Hpipe Hrest].
  rewrite Hpipe, (IH Hrest). unfold settled.
  destruct (justPassed pipe); simpl; [| reflexivity].
  f_equal. lia.
Qed.

(** In any case the score is raised at most once for each obstacle that
    passes the test of line 127. *)
Lemma pipeLoop_gained_bound (y : number) (ps : list Pipe) :
  (0 <= gained (pipeLoop y ps) <= Z.of_nat (length (filter justPassed ps)))%Z.
Proof.
  induction ps as [| pipe rest IH]; simpl; [lia |].
  destruct (hitsPipe y pipe); simpl.
  - destruct (justPassed pipe); simpl; lia.
  - destruct (justPassed pipe); simpl; lia.
Qed.

Lemma evaluate_pipes (s : Game) :
  Forall2 sameObstacle (pipes s) (pipes (evaluate s)).
Proof.
  assert (Hrefl : forall ps, Forall2 sameObstacle ps ps).
  { induction ps; constructor; [apply sameObstacle_refl | assumption]. }
  unfold evaluate.
  destruct (gameState s); simpl; try apply Hrefl.
  destruct (hitsBoundary (birdY s)); simpl; [apply Hrefl |].
  apply pipeLoop_marked.
Qed.

Lemma evaluate_pipes_x (s : Game) :
  map x (pipes (evaluate s)) = map x (pipes s).
Proof.
  generalize (evaluate_pipes s).
  induction 1 as [| p q ps qs (Hx & _) _ IH]; simpl; congruence.
Qed.

(** ** Obstacles that left the screen *)

Lemma allOnScreen_In (s : Game) :
  allOnScreen s <-> forall q : Pipe, In q (pipes s) -> - PIPE_WIDTH < x q.
Proof.
  unfold allOnScreen. rewrite Forall_forall. split.
  - intros H q Hq. apply H. apply in_map. exact Hq.
  - intros H a Ha. apply in_map_iff in Ha. destruct Ha as (q & <- & Hq). auto.
Qed.

Lemma frame_allOnScreen (random : number) (s : Game) :
  gameState s = playing -> allOnScreen (frame random s).
Proof.
  intros Hplay. rewrite (frame_playing random s Hplay).
  apply allOnScreen_In. intros q Hq.
  apply gameLoop_pipes_origin in Hq.
  destruct Hq as [-> | (p & _ & -> & Hon)].
  - vm_compute. reflexivity.
  - exact Hon.
Qed.

Lemma step_allOnScreen (s t : Game) :
  step s t -> allOnScreen s -> allOnScreen t.
Proof.
  intros [u | random u _ | u] Hall.
  - unfold jump. destruct (gameState u); try exact Hall. constructor.
  - destruct (gameState u) eqn:Hstate;
      try (unfold frame; rewrite Hstate; exact Hall).
    apply frame_allOnScreen. exact Hstate.
  - unfold allOnScreen. rewrite evaluate_pipes_x. exact Hall.
Qed.

Lemma steps_allOnScreen (s t : Game) :
  steps s t -> allOnScreen s -> allOnScreen t.
Proof.
  induction 1 as [s | s t u _ IH Hstep]; [auto |].
  intros Hall. exact (step_allOnScreen t u Hstep (IH Hall)).
Qed.

(** ** Arithmetic of the invariants *)

Lemma onLattice_move (a : number) : onLattice a -> onLattice (a - PIPE_SPEED).
Proof.
  intros [k Hk]. exists (k - 1)%Z.
  rewrite Hk. unfold PIPE_SPEED.
  replace (4 * (k - 1))%Z with (4 * k + - (4))%Z by lia.
  rewrite inject_Z_plus. reflexivity.
Qed.

Lemma onLattice_GAME_WIDTH : onLattice GAME_WIDTH.
Proof. exists 100%Z. reflexivity. Qed.

(** The only multiple of four in [lo, lo + 4) when [lo] is one. *)
Lemma onLattice_pin (a : number) (k : Z) :
  onLattice a ->
  inject_Z (4 * k) <= a -> a < inject_Z (4 * k) + 4 ->
  a == inject_Z (4 * k).
Proof.
  intros [j Hj] Hlo Hhi. rewrite Hj in *.
  change 4 with (inject_Z 4) in Hhi. rewrite <- inject_Z_plus in Hhi.
  rewrite <- Zle_Qle in Hlo. rewrite <- Zlt_Qlt in Hhi.
  replace j with k by lia. reflexivity.
Qed.

Lemma onLattice_zero (a : number) : onLattice a -> 0 <= a -> a < 4 -> a == 0.
Proof.
  intros Hlat Hlo Hhi.
  apply (onLattice_pin a 0 Hlat); simpl; [exact Hlo |].
  change (inject_Z 0) with 0. lra.
Qed.

Lemma onLattice_entering (a : number) :
  onLattice a -> 126 <= a -> a < 130 -> a == 128.
Proof.
  intros [j Hj] Hlo Hhi. rewrite Hj in *.
  change 126 with (inject_Z 126) in Hlo.
  change 130 with (inject_Z 130) in Hhi.
  rewrite <- Zle_Qle in Hlo. rewrite <- Zlt_Qlt in Hhi.
  replace j with 32%Z by lia. reflexivity.
Qed.

Lemma overlapFrames_move (p : Pipe) :
  overlapFrames (movePipe p) == overlapFrames p + 1.
Proof. unfold overlapFrames, movePipe, PIPE_SPEED. simpl. field. Qed.

Lemma fallBound_fall (n n' y y' v v' g : number) :
  n' == n + 1 -> y' == y + v -> v' == v + GRAVITY ->
  fallBound n y v g -> fallBound n' y' v' g.
Proof.
  unfold fallBound, JUMP_FORCE, GRAVITY. intros Hn Hy Hv [Hjump | Hfall].
  - left. lra.
  - right. rewrite Hn, Hy, Hv.
    assert (Heq : (n + 1 - 1) * (v + (6 # 10)) - (3 # 10) * (n + 1) * (n + 1 - 1)
                  == (n - 1) * v - (3 # 10) * n * (n - 1) + v) by ring.
    rewrite Heq. lra.
Qed.

Lemma fallBound_jump (n y g : number) : 0 <= n -> fallBound n y JUMP_FORCE g.
Proof. intros Hn. left. unfold GRAVITY. lra. Qed.

Lemma fallBound_enter (n y v g : number) :
  n == 1 -> g <= y -> fallBound n y v g.
Proof.
  intros Hn Hg. right. rewrite Hn.
  assert (Heq : (1 - 1) * v - (3 # 10) * 1 * (1 - 1) == 0) by ring.
  rewrite Heq. lra.
Qed.

(** After thirty-two frames under the gap top and above the gap bottom the
    bird falls at less than fourteen pixels a frame. *)
Lemma fallBound_leave (n y v g : number) :
  n == 32 -> y - g <= 130 -> fallBound n y v g -> v <= 138 # 10.
Proof.
  unfold fallBound, JUMP_FORCE, GRAVITY. intros Hn Hy [Hjump | Hfall].
  - lra.
  - rewrite Hn in Hfall.
    assert (Heq : (32 - 1) * v - (3 # 10) * 32 * (32 - 1)
                  == 31 * v - (2976 # 10)) by ring.
    rewrite Heq in Hfall. lra.
Qed.

(** ** Spacing of the obstacles *)

Lemma spaced_filter (f : Pipe -> bool) (ps : list Pipe) :
  spaced ps -> spaced (filter f ps).
Proof.
  induction ps as [| p rest IH]; simpl; [auto |].
  intros [Hfar Hrest]. destruct (f p); simpl; [| auto].
  split; [| auto].
  rewrite Forall_forall in *. intros q Hq.
  apply filter_In in Hq. apply Hfar. tauto.
Qed.

Lemma spaced_move (ps : list Pipe) :
  spaced ps -> spaced (map movePipe ps).
Proof.
  induction ps as [| p rest IH]; simpl; [auto |].
  intros [Hfar Hrest]. split; [| auto].
  rewrite Forall_forall in *. intros q Hq.
  apply in_map_iff in Hq. destruct Hq as (q0 & <- & Hq0).
  specialize (Hfar q0 Hq0). simpl. lra.
Qed.

Lemma spaced_snoc (ps : list Pipe) (p : Pipe) :
  spaced ps ->
  (forall q : Pipe, In q ps -> x q + 200 < x p) ->
  spaced (ps ++ [p]).
Proof.
  induction ps as [| q rest IH]; simpl; [auto |].
  intros [Hfar Hrest] Hlast. split.
  - apply Forall_app. split; [exact Hfar |].
    constructor; [| constructor]. apply Hlast. left. reflexivity.
  - apply IH; [exact Hrest |]. intros r Hr. apply Hlast. right. exact Hr.
Qed.

Lemma spaced_same_x (ps qs : list Pipe) :
  map x qs = map x ps -> spaced ps -> spaced qs.
Proof.
  revert qs. induction ps as [| p rest IH]; intros [| q qs] Hx;
    simpl in *; try discriminate; [auto |].
  injection Hx as Hq Hqs. intros [Hfar Hrest]. split; [| eauto].
  rewrite Forall_forall in *. intros r Hr.
  apply (in_map x) in Hr. rewrite Hqs in Hr.
  apply in_map_iff in Hr. destruct Hr as (r0 & Hr0 & Hin).
  rewrite Hq, <- Hr0. apply Hfar. exact Hin.
Qed.

(** Two obstacles of a spaced list that are at most 200 pixels apart are at
    the same place of the list. *)
Lemma spaced_apart (ps : list Pipe) (p q : Pipe) :
  spaced ps -> In p ps -> In q ps ->
  p = q \/ x p + 200 < x q \/ x q + 200 < x p.
Proof.
  induction ps as [| r rest IH]; simpl; [tauto |].
  intros [Hfar Hrest] [Hp | Hp] [Hq | Hq]; subst.
  - left. reflexivity.
  - right. left. rewrite Forall_forall in Hfar. apply Hfar. exact Hq.
  - right. right. rewrite Forall_forall in Hfar. apply Hfar. exact Hp.
  - apply IH; assumption.
Qed.

(** A test that only the obstacles at one position pass is passed by exactly
    one obstacle of a spaced list, if by any. *)
Lemma spaced_one (f : Pipe -> bool) (ps : list Pipe) (p : Pipe) :
  spaced ps -> In p ps -> f p = true ->
  (forall q : Pipe, In q ps -> f q = true -> x q == x p) ->
  length (filter f ps) = 1%nat.
Proof.
  induction ps as [| r rest IH]; simpl; [tauto |].
  intros [Hfar Hrest] Hp Hfp Hsame.
  destruct (f r) eqn:Hfr.
  - simpl. f_equal.
    assert (Hr : x r == x p) by (apply Hsame; auto).
    assert (Hnone : forall q, In q rest -> f q = false).
    { intros q Hq. destruct (f q) eqn:Hfq; [| reflexivity].
      assert (Hqp : x q == x p) by (apply Hsame; auto).
      rewrite Forall_forall in Hfar. specialize (Hfar q Hq). lra. }
    clear - Hnone. induction rest as [| q rest IH]; simpl; [reflexivity |].
    rewrite (Hnone q) by (left; reflexivity).
    apply IH. intros q' Hq'. apply Hnone. right. exact Hq'.
  - destruct Hp as [Hp | Hp]; [congruence |].
    apply IH; auto.
Qed.

(** ** The invariant [basic] *)

Lemma basic_initial : basic initial.
Proof.
  constructor; simpl.
  - unfold JUMP_FORCE. lra.
  - lra.
  - exact I.
  - intros p [].
Qed.

Lemma basic_jump (s : Game) : basic s -> basic (jump s).
Proof.
  intros [Hv Hlast Hspaced Hplaced]. unfold jump.
  destruct (gameState s); constructor; simpl; auto;
    try (unfold JUMP_FORCE; lra).
  intros p [].
Qed.

Lemma basic_gameLoop (v random : number) (s : Game) :
  0 <= random < 1 -> basic s -> basic (gameLoop v random s).
Proof.
  intros Hrandom [Hv Hlast Hspaced Hplaced].
  assert (Hkept : spaced (filter onScreen (map movePipe (pipes s))))
    by (apply spaced_filter, spaced_move, Hspaced).
  assert (Hold : forall q, In q (filter onScreen (map movePipe (pipes s))) ->
                 exists p, In p (pipes s) /\ q = movePipe p).
  { intros q Hq. apply filter_In in Hq. destruct Hq as [Hq _].
    apply in_map_iff in Hq. destruct Hq as (p & <- & Hp). eauto. }
  constructor; simpl.
  - unfold JUMP_FORCE, GRAVITY in *. lra.
  - destruct (200 <? lastPipe s + PIPE_SPEED) eqn:Hspawn; [lra |].
    apply ltb_ge in Hspawn. unfold PIPE_SPEED in *. lra.
  - destruct (200 <? lastPipe s + PIPE_SPEED) eqn:Hspawn; [| exact Hkept].
    apply ltb_lt in Hspawn.
    apply spaced_snoc; [exact Hkept |].
    intros q Hq. destruct (Hold q Hq) as (p & Hp & ->).
    destruct (Hplaced p Hp) as (Hroom & _).
    simpl. unfold GAME_WIDTH, PIPE_SPEED in *. lra.
  - intros q Hq.
    assert (Hmoved : forall p, In p (pipes s) ->
              x (movePipe p) + (lastPipe s + PIPE_SPEED) <= GAME_WIDTH /\
              onLattice (x (movePipe p)) /\
              75 <= gapY (movePipe p) <= 345).
    { intros p Hp. destruct (Hplaced p Hp) as (Hroom & Hlat & Hgap).
      repeat split; try apply Hgap.
      - simpl. unfold PIPE_SPEED. lra.
      - apply onLattice_move. exact Hlat. }
    destruct (200 <? lastPipe s + PIPE_SPEED) eqn:Hspawn.
    + apply in_app_or in Hq. destruct Hq as [Hq | [<- | []]].
      * destruct (Hold q Hq) as (p & Hp & ->).
        destruct (Hmoved p Hp) as (Hroom & Hlat & Hgap).
        repeat split; try assumption; try apply Hgap.
        unfold PIPE_SPEED in *. lra.
      * repeat split.
        -- simpl. lra.
        -- exact onLattice_GAME_WIDTH.
        -- apply (newPipe_gap_fits random Hrandom).
        -- pose proof (newPipe_gap_fits random Hrandom) as [_ Hfit].
           unfold PIPE_GAP, GAME_HEIGHT in Hfit. lra.
    + destruct (Hold q Hq) as (p & Hp & ->). auto.
Qed.

Lemma basic_frame (random : number) (s : Game) :
  0 <= random < 1 -> basic s -> basic (frame random s).
Proof.
  intros Hrandom Hbasic. unfold frame.
  destruct (gameState s); try exact Hbasic.
  apply basic_gameLoop; assumption.
Qed.

Lemma basic_evaluate (s : Game) : basic s -> basic (evaluate s).
Proof.
  intros [Hv Hlast Hspaced Hplaced]. constructor.
  - rewrite evaluate_birdVelocity. exact Hv.
  - rewrite evaluate_lastPipe. exact Hlast.
  - apply (spaced_same_x (pipes s)); [apply evaluate_pipes_x | exact Hspaced].
  - intros q Hq. rewrite evaluate_lastPipe.
    destruct (Forall2_origin _ _ _ q (evaluate_pipes s) Hq)
      as (p & Hp & Hx & Hgap & _).
    rewrite Hx, Hgap. apply Hplaced. exact Hp.
Qed.

(** ** The effect when nothing is hit *)

Lemma evaluate_clear (s : Game) :
  gameState s = playing ->
  hitsBoundary (birdY s) = false ->
  existsb (hitsPipe (birdY s)) (pipes s) = false ->
  evaluate s =
    {| gameState := playing;
       birdY := birdY s;
       birdVelocity := birdVelocity s;
       pipes := map settled (pipes s);
       score := score s + Z.of_nat (length (filter justPassed (pipes s)));
       highScore := highScore s;
       birdRotation := birdRotation s;
       lastPipe := lastPipe s |}.
Proof.
  intros Hplay Hedge Hnone. unfold evaluate.
  rewrite Hplay, Hedge, (pipeLoop_no_hit _ _ Hnone). reflexivity.
Qed.

Lemma evaluate_continues (s : Game) :
  gameState s = playing ->
  gameState (evaluate s) = playing ->
  hitsBoundary (birdY s) = false /\
  existsb (hitsPipe (birdY s)) (pipes s) = false.
Proof.
  intros Hplay Hgo. rewrite (evaluate_gameState s Hplay) in Hgo.
  destruct (hitsBoundary (birdY s)); simpl in Hgo; [discriminate |].
  destruct (existsb (hitsPipe (birdY s)) (pipes s)); [discriminate | auto].
Qed.

Lemma settled_justPassed (pipe : Pipe) : justPassed (settled pipe) = false.
Proof.
  unfold justPassed. rewrite settled_passed, settled_x.
  destruct (passed pipe), (x pipe + PIPE_WIDTH <? birdLeft); reflexivity.
Qed.

Lemma settled_hitsPipe (y : number) (pipe : Pipe) :
  hitsPipe y (settled pipe) = hitsPipe y pipe.
Proof.
  unfold hitsPipe, overlaps, outsideGap.
  rewrite settled_x, settled_gapY. reflexivity.
Qed.

Lemma settled_settled (pipe : Pipe) : settled (settled pipe) = settled pipe.
Proof. unfold settled at 1. rewrite settled_justPassed. reflexivity. Qed.

Lemma settled_none_justPassed (ps : list Pipe) :
  filter justPassed (map settled ps) = [].
Proof.
  induction ps as [| p rest IH]; simpl; [reflexivity |].
  rewrite settled_justPassed. exact IH.
Qed.

Lemma settled_same_hits (y : number) (ps : list Pipe) :
  existsb (hitsPipe y) (map settled ps) = existsb (hitsPipe y) ps.
Proof.
  induction ps as [| p rest IH]; simpl; [reflexivity |].
  rewrite settled_hitsPipe, IH. reflexivity.
Qed.

(** Running the effect a second time changes nothing. *)
Lemma evaluate_idempotent (s : Game) : evaluate (evaluate s) = evaluate s.
Proof.
  destruct (gameState s) eqn:Hplay;
    try (unfold evaluate; rewrite Hplay; rewrite Hplay; reflexivity).
  destruct (gameState (evaluate s)) eqn:Hgo;
    try (unfold evaluate at 1; rewrite Hgo; reflexivity).
  destruct (evaluate_continues s Hplay Hgo) as [Hedge Hnone].
  rewrite (evaluate_clear s Hplay Hedge Hnone).
  rewrite evaluate_clear; simpl; try assumption; try reflexivity.
  - rewrite settled_none_justPassed, map_map. simpl. rewrite Z.add_0_r.
    f_equal. apply map_ext. apply settled_settled.
  - rewrite settled_same_hits. exact Hnone.
Qed.

(** ** The invariant [sound] *)

Lemma overlapFrames_pos (p : Pipe) : x p < 130 -> 0 <= overlapFrames p.
Proof.
  intros Hx. unfold overlapFrames.
  apply Qle_shift_div_l; lra.
Qed.

Lemma sound_initial : sound initial.
Proof.
  constructor.
  - exact basic_initial.
  - intros _. split; reflexivity.
  - discriminate.
Qed.

Lemma safe_jump (y v : number) (p : Pipe) :
  JUMP_FORCE <= v -> safe y v p -> safe y JUMP_FORCE p.
Proof.
  intros Hv [Hpassed Hleaving Hinside]. constructor.
  - exact Hpassed.
  - intros Hx. destruct (Hleaving Hx) as [Hlow Hhigh]. lra.
  - intros Hx. destruct (Hinside Hx) as (Htop & Hbottom & _).
    repeat split; try assumption.
    apply fallBound_jump, overlapFrames_pos. apply Hx.
Qed.

Lemma sound_press (s : Game) : sound s -> sound (press s).
Proof.
  intros [Hbasic Hidle Hplaying]. unfold press.
  destruct (gameState s) eqn:Hstate.
  - (* idle: the round starts *)
    destruct (Hidle eq_refl) as [Hnone Hcentre].
    assert (Hjump : jump s =
      {| gameState := playing; birdY := birdY s; birdVelocity := JUMP_FORCE;
         pipes := []; score := score s; highScore := highScore s;
         birdRotation := birdRotation s; lastPipe := lastPipe s |}).
    { unfold jump. rewrite Hstate, Hnone. reflexivity. }
    assert (Hedge : hitsBoundary (birdY s) = false).
    { apply hitsBoundary_false. unfold BIRD_SIZE, GAME_HEIGHT. lra. }
    pose proof (basic_evaluate _ (basic_jump s Hbasic)) as Hbasic'.
    rewrite Hjump in Hbasic' |- *.
    rewrite evaluate_clear in Hbasic' |- *; try reflexivity; try exact Hedge.
    constructor; simpl; [exact Hbasic' | discriminate |].
    intros _. split; [lra | intros p []].
  - (* playing: only the velocity is written *)
    destruct (Hplaying eq_refl) as [Hy Hsafe].
    constructor.
    + apply basic_jump. exact Hbasic.
    + unfold jump. rewrite Hstate. discriminate.
    + intros _. unfold jump. rewrite Hstate. simpl.
      split; [exact Hy |].
      intros p Hp. apply (safe_jump _ (birdVelocity s)); [| auto].
      apply Hbasic.
  - (* dead: the round is reset *)
    assert (Hjump : gameState (jump s) = idle)
      by (unfold jump; rewrite Hstate; reflexivity).
    assert (Hsame : evaluate (jump s) = jump s)
      by (unfold evaluate; rewrite Hjump; reflexivity).
    rewrite Hsame. constructor.
    + apply basic_jump. exact Hbasic.
    + intros _. unfold jump. rewrite Hstate. simpl.
      split; reflexivity.
    + rewrite Hjump. discriminate.
Qed.

(** A frame whose result is strictly inside the playfield was not clamped. *)
Lemma gameLoop_not_clamped (v random : number) (s : Game) :
  hitsBoundary (birdY (gameLoop v random s)) = false ->
  birdY (gameLoop v random s) == birdY s + v.
Proof.
  intros Hedge. apply hitsBoundary_false in Hedge. simpl in *.
  apply clamp_inside. lra.
Qed.

(** What an obstacle that was safe before the frame allows after it, once
    the effect has found the bird clear of ceiling, floor and obstacles. *)
Lemma safe_after_frame (y v y' : number) (p : Pipe) :
  JUMP_FORCE <= v ->
  onLattice (x p) ->
  75 <= gapY p <= 345 ->
  safe y v p ->
  y' == y + v ->
  hitsPipe y' (movePipe p) = false ->
  safe y' (v + GRAVITY) (settled (movePipe p)).
Proof.
  intros Hv Hlat Hgap [Hpassed Hleaving Hinside] Hy' Hclear.
  rewrite hitsPipe_false in Hclear.
  constructor; rewrite ?settled_x, ?settled_gapY; simpl.
  - intros Hx. rewrite settled_passed. apply orb_true_iff. right.
    apply ltb_lt. simpl. unfold PIPE_WIDTH, birdLeft. lra.
  - intros Hx.
    assert (Hx4 : x p == 4) by (unfold PIPE_SPEED in Hx; lra).
    destruct Hinside as (Htop & Hbottom & Hfall); [lra |].
    assert (Hslow : v <= 138 # 10).
    { apply (fallBound_leave (overlapFrames p) y v (gapY p)).
      - unfold overlapFrames. rewrite Hx4. reflexivity.
      - unfold BIRD_SIZE, PIPE_GAP in Hbottom. lra.
      - exact Hfall. }
    unfold JUMP_FORCE, GRAVITY, BIRD_SIZE, PIPE_GAP in *. lra.
  - intros Hx.
    destruct Hclear as [Htop Hbottom].
    { simpl. unfold birdRight, birdLeft, BIRD_SIZE, PIPE_WIDTH. lra. }
    simpl in Htop, Hbottom.
    repeat split; try assumption.
    assert (Hframes : overlapFrames (settled (movePipe p))
                      == overlapFrames p + 1).
    { unfold overlapFrames. rewrite settled_x. apply overlapFrames_move. }
    destruct (Qlt_le_dec (x p) 130) as [Hin | Hout].
    + destruct Hinside as (_ & _ & Hfall);
        [unfold PIPE_SPEED in Hx; lra |].
      apply (fallBound_fall (overlapFrames p) _ y y' v); auto.
      reflexivity.
    + apply fallBound_enter; [| exact Htop].
      rewrite Hframes. unfold overlapFrames.
      assert (Hx128 : x p - PIPE_SPEED == 128).
      { apply onLattice_entering;
          [apply onLattice_move; exact Hlat | |];
          unfold PIPE_SPEED in *; lra. }
      unfold PIPE_SPEED in Hx128.
      assert (Hx132 : x p == 132) by lra.
      rewrite Hx132. reflexivity.
Qed.

Lemma safe_newPipe (y v random : number) :
  safe y v (settled (newPipe random)).
Proof.
  constructor; rewrite ?settled_x; simpl; unfold GAME_WIDTH; intros Hx;
    exfalso; lra.
Qed.

(** The facts about a frame of a played game that the invariants use. *)
Lemma frame_facts (random : number) (s : Game) :
  gameState s = playing ->
  gameState (frame random s) = playing /\
  birdVelocity (frame random s) = birdVelocity s + GRAVITY /\
  (hitsBoundary (birdY (frame random s)) = false ->
   birdY (frame random s) == birdY s + birdVelocity s) /\
  (forall q : Pipe,
     In q (pipes (frame random s)) ->
     q = newPipe random \/
     exists p : Pipe, In p (pipes s) /\ q = movePipe p).
Proof.
  intros Hplay. rewrite (frame_playing random s Hplay).
  split; [exact Hplay |]. split; [reflexivity |].
  split; [apply gameLoop_not_clamped |].
  intros q Hq. apply gameLoop_pipes_origin in Hq.
  destruct Hq as [-> | (p & Hp & -> & _)]; eauto.
Qed.

Lemma sound_tick (random : number) (s : Game) :
  0 <= random < 1 -> sound s -> sound (tick random s).
Proof.
  intros Hrandom Hsound. unfold tick.
  destruct (gameState s) eqn:Hstate.
  - assert (Hsame : evaluate (frame random s) = s).
    { unfold frame. rewrite Hstate. unfold evaluate. rewrite Hstate.
      reflexivity. }
    rewrite Hsame. exact Hsound.
  - destruct Hsound as [Hbasic Hidle Hplaying].
    destruct (Hplaying Hstate) as [Hy Hsafe].
    pose proof (basic_frame random s Hrandom Hbasic) as Hbasic'.
    destruct (frame_facts random s Hstate) as (Hplay & Hv & Hmoved & Horigin).
    remember (frame random s) as t eqn:Ht. clear Ht.
    constructor.
    + apply basic_evaluate. exact Hbasic'.
    + intros Hnow. rewrite (evaluate_gameState t Hplay) in Hnow.
      destruct (_ || _); discriminate.
    + intros Hgo.
      destruct (evaluate_continues t Hplay Hgo) as [Hedge Hnone].
      rewrite (evaluate_clear t Hplay Hedge Hnone). simpl.
      specialize (Hmoved Hedge).
      split.
      * apply hitsBoundary_false in Hedge.
        unfold BIRD_SIZE, GAME_HEIGHT in Hedge. lra.
      * intros q' Hq'. apply in_map_iff in Hq'.
        destruct Hq' as (q & <- & Hq).
        pose proof (existsb_none _ _ q Hnone Hq) as Hclear.
        rewrite Hv.
        destruct (Horigin q Hq) as [-> | (p & Hp & ->)];
          [apply safe_newPipe |].
        destruct (basic_placed s Hbasic p Hp) as (_ & Hlat & Hgap).
        apply (safe_after_frame (birdY s)); auto.
        apply Hbasic.
  - assert (Hsame : evaluate (frame random s) = s).
    { unfold frame. rewrite Hstate. unfold evaluate. rewrite Hstate.
      reflexivity. }
    rewrite Hsame. exact Hsound.
Qed.

Lemma played_sound (s : Game) : played s -> sound s.
Proof.
  induction 1 as [| s _ IH | random s Hrandom _ IH].
  - exact sound_initial.
  - apply sound_press. exact IH.
  - apply sound_tick; assumption.
Qed.

Lemma played_reachable (s : Game) : played s -> reachable s.
Proof.
  unfold reachable.
  induction 1 as [| s _ IH | random s Hrandom _ IH].
  - apply steps_refl.
  - unfold press. destruct (gameState s).
    + eapply steps_snoc; [| apply step_evaluate].
      eapply steps_snoc; [exact IH | apply step_jump].
    + eapply steps_snoc; [exact IH | apply step_jump].
    + eapply steps_snoc; [| apply step_evaluate].
      eapply steps_snoc; [exact IH | apply step_jump].
  - unfold tick.
    eapply steps_snoc; [| apply step_evaluate].
    eapply steps_snoc; [exact IH | apply step_frame; exact Hrandom].
Qed.

(** ** Scoring *)

Lemma justPassed_true (pipe : Pipe) :
  justPassed pipe = true <->
  passed pipe = false /\ x pipe + PIPE_WIDTH < birdLeft.
Proof.
  unfold justPassed.
  rewrite andb_true_iff, negb_true_iff, ltb_lt. reflexivity.
Qed.

Lemma movePipe_iter_passed (k : nat) (pipe : Pipe) :
  passed (Nat.iter k movePipe pipe) = passed pipe.
Proof. induction k as [| k IH]; simpl; [reflexivity | exact IH]. Qed.

Lemma pipeLoop_all_passed (y : number) (ps : list Pipe) :
  Forall (fun q => passed q = true) ps -> gained (pipeLoop y ps) = 0%Z.
Proof.
  intros Hall.
  assert (Hnone : filter justPassed ps = []).
  { induction Hall as [| q rest Hq _ IH]; simpl; [reflexivity |].
    unfold justPassed at 1. rewrite Hq. simpl. exact IH. }
  pose proof (pipeLoop_gained_bound y ps) as Hbound.
  rewrite Hnone in Hbound. simpl in Hbound. lia.
Qed.

(** In a played game, an obstacle passes the test of line 127 on the frame
    that takes it from [x = 0] to [x = -4], and the bird is then clear of
    ceiling and floor. *)
Lemma passing_position (random : number) (s : Game) (q : Pipe) :
  sound s ->
  gameState s = playing ->
  In q (pipes (frame random s)) ->
  justPassed q = true ->
  x q == -4 /\ 65 <= birdY s /\ birdY s + birdVelocity s < 550.
Proof.
  intros [Hbasic _ Hplaying] Hplay Hq Hjust.
  destruct (Hplaying Hplay) as [_ Hsafe].
  apply justPassed_true in Hjust. destruct Hjust as [Hflag Hpast].
  destruct (frame_facts random s Hplay) as (_ & _ & _ & Horigin).
  destruct (Horigin q Hq) as [-> | (p & Hp & ->)].
  - simpl in Hpast. unfold GAME_WIDTH, PIPE_WIDTH, birdLeft in Hpast. lra.
  - simpl in Hflag, Hpast.
    destruct (Hsafe p Hp) as [Hpassed Hleaving _].
    destruct (basic_placed s Hbasic p Hp) as (_ & Hlat & _).
    assert (Hzero : x p == 0).
    { apply onLattice_zero; [exact Hlat | |].
      - destruct (Qlt_le_dec (x p) 0) as [Hneg | Hpos]; [| exact Hpos].
        rewrite (Hpassed Hneg) in Hflag. discriminate.
      - unfold PIPE_SPEED, PIPE_WIDTH, birdLeft in Hpast. lra. }
    split; [simpl; unfold PIPE_SPEED; lra |].
    apply Hleaving. exact Hzero.
Qed.

(** On such a frame the effect hits nothing, and the obstacle is the only
    one that passes the test. *)
Lemma passing_frame_clear (random : number) (s : Game) (pipe : Pipe) :
  sound s ->
  0 <= random < 1 ->
  gameState s = playing ->
  In pipe (pipes (frame random s)) ->
  justPassed pipe = true ->
  hitsBoundary (birdY (frame random s)) = false /\
  existsb (hitsPipe (birdY (frame random s))) (pipes (frame random s))
    = false /\
  length (filter justPassed (pipes (frame random s))) = 1%nat.
Proof.
  intros Hsound Hrandom Hplay Hin Hjust.
  destruct (passing_position random s pipe Hsound Hplay Hin Hjust)
    as (Hx & Hlow & Hhigh).
  pose proof (basic_frame random s Hrandom (sound_basic s Hsound)) as Hbasic.
  pose proof (basic_velocity s (sound_basic s Hsound)) as Hv.
  assert (Hy : birdY (frame random s) == birdY s + birdVelocity s).
  { rewrite (frame_playing random s Hplay). simpl.
    generalize (clamp_bounds 0 (GAME_HEIGHT - BIRD_SIZE)
                  (birdY s + birdVelocity s)).
    unfold GAME_HEIGHT, BIRD_SIZE, JUMP_FORCE in *.
    clamp_cases 0 (600 - 50) (birdY s + birdVelocity s). }
  assert (Hsame : forall q, In q (pipes (frame random s)) ->
                  justPassed q = true -> x q == x pipe).
  { intros q Hq Hqjust.
    destruct (passing_position random s q Hsound Hplay Hq Hqjust)
      as (Hxq & _).
    rewrite Hxq, Hx. reflexivity. }
  remember (frame random s) as t eqn:Ht. clear Ht.
  split; [| split].
  - apply hitsBoundary_false.
    unfold GAME_HEIGHT, BIRD_SIZE, JUMP_FORCE in *. lra.
  - destruct (existsb (hitsPipe (birdY t)) (pipes t)) eqn:Hsome;
      [| reflexivity].
    apply existsb_exists in Hsome. destruct Hsome as (q & Hq & Hhit).
    apply hitsPipe_true in Hhit. destruct Hhit as [[Hleft Hright] _].
    unfold birdRight, birdLeft, BIRD_SIZE, PIPE_WIDTH in *.
    destruct (spaced_apart (pipes t) pipe q (basic_spaced t Hbasic) Hin Hq)
      as [-> | [Hfar | Hfar]]; lra.
  - exact (spaced_one justPassed (pipes t) pipe
             (basic_spaced t Hbasic) Hin Hjust Hsame).
Qed.

(** So the run of the effect that ends a round of a played game brings no
    score: the score it compares with the best score is the final score of
    the round. *)
Lemma lost_round_score (random : number) (s : Game) :
  sound s ->
  0 <= random < 1 ->
  gameState s = playing ->
  gameState (evaluate (frame random s)) = dead ->
  score (evaluate (frame random s)) = score s.
Proof.
  intros Hsound Hrandom Hplay Hlost.
  destruct (frame_facts random s Hplay) as (Hplay' & _).
  rewrite <- (frame_score random s).
  destruct (filter justPassed (pipes (frame random s))) as [| pipe rest]
    eqn:Hpassing.
  - unfold evaluate. rewrite Hplay'.
    destruct (hitsBoundary (birdY (frame random s))); [reflexivity |].
    simpl.
    pose proof (pipeLoop_gained_bound (birdY (frame random s))
                  (pipes (frame random s))) as Hbound.
    rewrite Hpassing in Hbound. simpl in Hbound. lia.
  - assert (Hpipe : In pipe (filter justPassed (pipes (frame random s))))
      by (rewrite Hpassing; left; reflexivity).
    apply filter_In in Hpipe. destruct Hpipe as [Hin Hjust].
    destruct (passing_frame_clear random s pipe Hsound Hrandom Hplay Hin Hjust)
      as (Hedge & Hnone & _).
    rewrite (evaluate_clear _ Hplay' Hedge Hnone) in Hlost.
    discriminate.
Qed.

(** ** The sample runs *)

Lemma played_climb (n : nat) : played (climb n).
Proof.
  induction n as [| n IH]; simpl; [exact played_initial |].
  apply played_tick; [lra |]. apply played_press. exact IH.
Qed.

Lemma played_fly (n : nat) (s : Game) : played s -> played (fly n s).
Proof.
  intros Hplayed. induction n as [| n IH]; simpl; [exact Hplayed |].
  apply played_tick; [lra |].
  unfold autopilot. destruct (310 <=? birdY _); [apply played_press |];
    exact IH.
Qed.

Lemma played_autopilot (s : Game) : played s -> played (autopilot s).
Proof.
  intros Hplayed. unfold autopilot.
  destruct (310 <=? birdY s); [apply played_press |]; exact Hplayed.
Qed.

Lemma played_flight150 : played flight150.
Proof. apply played_fly, played_press, played_initial. Qed.

Lemma played_flight151 : played flight151.
Proof.
  apply played_tick; [lra |]. apply played_autopilot, played_flight150.
Qed.

Lemma flightLog_of_record (s : Game) :
  flightRecord s =
    (playing,
     [ overlapping; {| x := 208; gapY := 420 # 2; passed := false |} ],
     true, true, playing,
     [ leaving; {| x := 200; gapY := 420 # 2; passed := false |} ]) ->
  flightLog s.
Proof.
  unfold flightRecord, flightLog. intros Hrecord.
  injection Hrecord as Hplay Hpipes Htop Hbottom Hplay' Hpipes'.
  apply leb_le in Htop, Hbottom.
  repeat split; assumption.
Qed.

(** The flight, run once: after 150 frames the bird is within the gap of the
    first obstacle, which is at [x = 4]; after 151 frames the game is still
    played, and the frame that follows takes the obstacle to [x = -4]. *)
Lemma flight_log : flightLog flight150.
Proof. apply flightLog_of_record. vm_compute. reflexivity. Qed.

(** ** The states the component can reach *)

Lemma step_basic (s t : Game) : step s t -> basic s -> basic t.
Proof.
  intros [u | random u Hrandom | u] Hbasic.
  - apply basic_jump. exact Hbasic.
  - apply basic_frame; assumption.
  - apply basic_evaluate. exact Hbasic.
Qed.

Lemma reachable_basic (s : Game) : reachable s -> basic s.
Proof.
  unfold reachable. intros Hsteps.
  remember initial as s0 eqn:Hs0.
  induction Hsteps as [s | s t u _ IH Hstep]; subst.
  - exact basic_initial.
  - exact (step_basic t u Hstep (IH eq_refl)).
Qed.

(** The effect on a played game, for any state of the hooks: the round ends
    exactly when the bird touches the ceiling or the floor or some obstacle
    of the list satisfies the tests of lines 118-119. *)
Lemma evaluate_dead (s : Game) :
  gameState s = playing ->
  (gameState (evaluate s) = dead <->
     (birdY s <= 0 \/ GAME_HEIGHT <= birdY s + BIRD_SIZE) \/
     exists pipe : Pipe,
       In pipe (pipes s) /\
       (x pipe < birdRight /\ birdLeft < x pipe + PIPE_WIDTH) /\
       ~ (gapY pipe <= birdY s /\
          birdY s + BIRD_SIZE <= gapY pipe + PIPE_GAP)).
Proof.
  intros Hplay. rewrite (evaluate_gameState s Hplay).
  destruct (hitsBoundary (birdY s)) eqn:Hedge; simpl.
  - apply hitsBoundary_true in Hedge. tauto.
  - apply hitsBoundary_false in Hedge.
    destruct (existsb (hitsPipe (birdY s)) (pipes s)) eqn:Hsome.
    + apply existsb_exists in Hsome. destruct Hsome as (pipe & Hin & Hhit).
      apply hitsPipe_true in Hhit.
      split; [intros _; right; exists pipe; tauto | reflexivity].
    + split; [discriminate |].
      intros [Hout | (pipe & Hin & Hhit)].
      * unfold GAME_HEIGHT, BIRD_SIZE in *. lra.
      * apply hitsPipe_true in Hhit.
        rewrite (existsb_none _ _ pipe Hsome Hin) in Hhit. discriminate.
Qed.

Lemma evaluate_dead_or_playing (s : Game) :
  gameState s = playing ->
  gameState (evaluate s) = playing \/ gameState (evaluate s) = dead.
Proof.
  intros Hplay. rewrite (evaluate_gameState s Hplay).
  destruct (_ || _); auto.
Qed.

(** ** The states of a played game are settled *)

Lemma evaluate_not_playing (s : Game) :
  gameState s <> playing -> evaluate s = s.
Proof.
  intros Hnot. unfold evaluate.
  destruct (gameState s); try reflexivity. congruence.
Qed.

Lemma settled_id (pipe : Pipe) : justPassed pipe = false -> settled pipe = pipe.
Proof. intros Hnot. unfold settled. rewrite Hnot. reflexivity. Qed.

(** Running the collision effect on a state of a played game changes
    nothing. *)
Lemma sound_settled (s : Game) : sound s -> evaluate s = s.
Proof.
  intros [Hbasic _ Hplaying].
  destruct (gameState s) eqn:Hphase;
    try (apply evaluate_not_playing; congruence).
  destruct (Hplaying eq_refl) as [Hy Hsafe].
  assert (Hedge : hitsBoundary (birdY s) = false).
  { apply hitsBoundary_false. unfold BIRD_SIZE, GAME_HEIGHT. lra. }
  assert (Hnone : existsb (hitsPipe (birdY s)) (pipes s) = false).
  { destruct (existsb (hitsPipe (birdY s)) (pipes s)) eqn:Hsome;
      [| reflexivity].
    apply existsb_exists in Hsome. destruct Hsome as (p & Hp & Hhit).
    apply hitsPipe_true in Hhit. destruct Hhit as [[Hleft Hright] Hout].
    elim Hout.
    destruct (safe_inside _ _ p (Hsafe p Hp)) as (Htop & Hbottom & _);
      [| auto].
    unfold birdRight, birdLeft, BIRD_SIZE, PIPE_WIDTH in *. lra. }
  assert (Hquiet : forall p, In p (pipes s) -> justPassed p = false).
  { intros p Hp. destruct (justPassed p) eqn:Hjust; [| reflexivity].
    apply justPassed_true in Hjust. destruct Hjust as [Hflag Hpast].
    rewrite (safe_passed _ _ p (Hsafe p Hp)) in Hflag; [discriminate |].
    unfold PIPE_WIDTH, birdLeft in Hpast. lra. }
  rewrite (evaluate_clear s Hphase Hedge Hnone).
  assert (Hpipes : map settled (pipes s) = pipes s).
  { rewrite <- (map_id (pipes s)) at 2. apply map_ext_in.
    intros p Hp. apply settled_id, Hquiet, Hp. }
  assert (Hgain : filter justPassed (pipes s) = []).
  { clear - Hquiet. induction (pipes s) as [| p rest IH]; [reflexivity |].
    simpl. rewrite (Hquiet p) by (left; reflexivity).
    apply IH. intros q Hq. apply Hquiet. right. exact Hq. }
  rewrite Hpipes, Hgain. simpl. rewrite Z.add_0_r.
  destruct s; simpl in *; subst; reflexivity.
Qed.

(** * The claims of the specification *)

(** ** Gravity and position *)

(** C1, as the code has it.  In a frame taken while the game is played the
    velocity grows by [GRAVITY], and the position moves by the velocity the
    frame started with, the one of the render that created the closure, not
    by the velocity just written; the result is then clamped. *)
Theorem frame_moves_by_previous_velocity :
  forall (random : number) (s : Game),
    gameState s = playing ->
    birdVelocity (frame random s) = birdVelocity s + GRAVITY /\
    birdY (frame random s) =
      Qmax 0 (Qmin (GAME_HEIGHT - BIRD_SIZE) (birdY s + birdVelocity s)).
Proof.
  intros random s Hplay.
  rewrite (frame_playing random s Hplay).
  split; reflexivity.
Qed.

Lemma frame_moves_by_previous_velocity_witness :
  birdVelocity (frame 0 (jump initial)) =
    birdVelocity (jump initial) + GRAVITY /\
  birdY (frame 0 (jump initial)) =
    Qmax 0 (Qmin (GAME_HEIGHT - BIRD_SIZE)
              (birdY (jump initial) + birdVelocity (jump initial))).
Proof.
  apply (frame_moves_by_previous_velocity 0 (jump initial)).
  reflexivity.
Defined.

(** C1 as the specification words it fails on the first frame after a jump
    from the initial state: the bird is at 300 and has velocity -10; the
    frame writes velocity -9.4 and position 290, whereas a move by the
    velocity just written would give 290.6. *)
Lemma frame_uses_updated_velocity_counterexample :
  gameState (jump initial) = playing /\
  birdY (jump initial) == 300 /\
  birdVelocity (jump initial) == -10 /\
  birdVelocity (frame 0 (jump initial)) == -94 # 10 /\
  birdY (frame 0 (jump initial)) == 290 /\
  ~ birdY (frame 0 (jump initial)) ==
      Qmax 0 (Qmin (GAME_HEIGHT - BIRD_SIZE)
                (birdY (jump initial) + birdVelocity (frame 0 (jump initial)))).
Proof.
  repeat split; try (vm_compute; reflexivity).
  vm_compute. discriminate.
Qed.

(** ** The bird stays in the playfield *)

(** C2.  In every state the component can reach, whatever the order of key
    presses, frames and runs of the collision effect, the vertical position
    of the bird lies in [0, GAME_HEIGHT - BIRD_SIZE], that is in [0, 550]. *)
Theorem bird_stays_in_playfield :
  forall s : Game,
    reachable s ->
    0 <= birdY s <= GAME_HEIGHT - BIRD_SIZE /\ 0 <= birdY s <= 550.
Proof.
  intros s Hreach.
  assert (H : 0 <= birdY s <= GAME_HEIGHT - BIRD_SIZE).
  { unfold reachable in Hreach.
    remember initial as s0 eqn:Hs0.
    induction Hreach as [s | s t u _ IH Hstep]; subst.
    - exact playfield_center.
    - exact (step_keeps_bird_inside t u Hstep (IH eq_refl)). }
  split; [exact H |].
  unfold GAME_HEIGHT, BIRD_SIZE in H. lra.
Qed.

Lemma bird_stays_in_playfield_witness :
  0 <= birdY (evaluate (frame 0 (jump initial))) <= GAME_HEIGHT - BIRD_SIZE /\
  0 <= birdY (evaluate (frame 0 (jump initial))) <= 550.
Proof.
  apply (bird_stays_in_playfield (evaluate (frame 0 (jump initial)))).
  unfold reachable.
  eapply steps_snoc; [| apply step_evaluate].
  eapply steps_snoc; [| apply step_frame; lra].
  eapply steps_snoc; [| apply step_jump].
  apply steps_refl.
Defined.

(** ** Collision with an obstacle *)

(** C3.  In any state the component can reach, while the game is played, an
    obstacle of the list that overlaps the bird horizontally
    ([x < birdRight] and [birdLeft < x + PIPE_WIDTH], both strict) makes the
    collision effect end the round exactly when the bird is not within its
    gap, the gap being taken with its bounds ([gapY <= top] and
    [bottom <= gapY + PIPE_GAP]).  So the phase stays [playing] when the bird
    is within the gap, and in particular when its top edge is on the gap top
    or its bottom edge on the gap bottom.  An obstacle that only touches the
    bird horizontally passes none of the tests of lines 118-119.  For any
    state of the hooks the round ends exactly when the bird touches the
    ceiling or the floor or some obstacle of the list overlaps it while it
    is not within the gap of that obstacle. *)
Theorem pipe_collision_exact :
  forall (s : Game) (pipe : Pipe),
    reachable s ->
    gameState s = playing ->
    In pipe (pipes s) ->
    x pipe < birdRight /\ birdLeft < x pipe + PIPE_WIDTH ->
    (gameState (evaluate s) = dead <->
       ~ (gapY pipe <= birdY s /\
          birdY s + BIRD_SIZE <= gapY pipe + PIPE_GAP)) /\
    (gameState (evaluate s) = playing <->
       gapY pipe <= birdY s /\
       birdY s + BIRD_SIZE <= gapY pipe + PIPE_GAP) /\
    (birdY s == gapY pipe \/
     birdY s + BIRD_SIZE == gapY pipe + PIPE_GAP ->
     gameState (evaluate s) = playing) /\
    (forall (y : number) (q : Pipe),
       birdRight <= x q \/ x q + PIPE_WIDTH <= birdLeft ->
       hitsPipe y q = false) /\
    (forall u : Game,
       gameState u = playing ->
       (gameState (evaluate u) = dead <->
          (birdY u <= 0 \/ GAME_HEIGHT <= birdY u + BIRD_SIZE) \/
          exists q : Pipe,
            In q (pipes u) /\
            (x q < birdRight /\ birdLeft < x q + PIPE_WIDTH) /\
            ~ (gapY q <= birdY u /\
               birdY u + BIRD_SIZE <= gapY q + PIPE_GAP))).
Proof.
  intros s pipe Hreach Hplay Hin Hover.
  pose proof (reachable_basic s Hreach) as Hbasic.
  destruct (basic_placed s Hbasic pipe Hin) as (_ & _ & Hgap).
  assert (Hdead : gameState (evaluate s) = dead <->
                  ~ (gapY pipe <= birdY s /\
                     birdY s + BIRD_SIZE <= gapY pipe + PIPE_GAP)).
  { rewrite (evaluate_dead s Hplay). split.
    - intros [Hedge | (q & Hq & Hqover & Hqout)] Hwithin.
      + unfold GAME_HEIGHT, BIRD_SIZE, PIPE_GAP in *. lra.
      + destruct (spaced_apart (pipes s) pipe q (basic_spaced s Hbasic)
                    Hin Hq) as [<- | Hfar].
        * exact (Hqout Hwithin).
        * unfold birdRight, birdLeft, BIRD_SIZE, PIPE_WIDTH in *.
          destruct Hfar; lra.
    - intros Hout. right. exists pipe. auto. }
  assert (Hgo : gameState (evaluate s) = playing <->
                gapY pipe <= birdY s /\
                birdY s + BIRD_SIZE <= gapY pipe + PIPE_GAP).
  { split.
    - intros Hsame.
      destruct (Qlt_le_dec (birdY s) (gapY pipe)) as [Habove | Htop].
      + assert (Hkill : gameState (evaluate s) = dead)
          by (apply Hdead; intros [Hle _]; exact (Qlt_not_le _ _ Habove Hle)).
        congruence.
      + destruct (Qlt_le_dec (gapY pipe + PIPE_GAP) (birdY s + BIRD_SIZE))
          as [Hbelow | Hbottom]; [| auto].
        assert (Hkill : gameState (evaluate s) = dead)
          by (apply Hdead; intros [_ Hle]; exact (Qlt_not_le _ _ Hbelow Hle)).
        congruence.
    - intros Hwithin.
      destruct (evaluate_dead_or_playing s Hplay) as [Hsame | Hkill];
        [exact Hsame |].
      apply Hdead in Hkill. contradiction. }
  split; [exact Hdead |]. split; [exact Hgo |].
  split; [| split].
  - intros Htouch. apply Hgo.
    unfold BIRD_SIZE, PIPE_GAP in *.
    destruct Htouch as [Htouch | Htouch]; split; lra.
  - intros y q Haway. apply hitsPipe_false. intros [Hleft Hright].
    exfalso. destruct Haway as [Haway | Haway].
    + exact (Qlt_not_le _ _ Hleft Haway).
    + exact (Qlt_not_le _ _ Hright Haway).
  - exact evaluate_dead.
Qed.

(** After 150 frames of the flight the first obstacle, at [x = 4], overlaps
    the bird, which is within its gap. *)
Lemma pipe_collision_exact_witness :
  gameState (evaluate flight150) = playing.
Proof.
  destruct flight_log as (Hplay & Hpipes & Htop & Hbottom & _).
  destruct (pipe_collision_exact flight150 overlapping) as (_ & Hgo & _).
  - apply played_reachable, played_flight150.
  - exact Hplay.
  - rewrite Hpipes. left. reflexivity.
  - split; vm_compute; reflexivity.
  - apply (proj2 Hgo). exact (conj Htop Hbottom).
Defined.

(** ** Scoring *)

(** C4, as the code has it.  The edge of the bird that line 127 compares
    the right edge of an obstacle with is its left edge, [birdLeft], the rear
    edge of a bird that advances to the right.  In a played game, when a
    frame leaves in the list an obstacle that is not yet passed and whose
    right edge [x + PIPE_WIDTH] is strictly left of [birdLeft], the
    run of the collision effect that follows writes [passed = true] in that
    obstacle, in place, and raises the score by exactly one; the round goes
    on.  Running the effect again leaves the score as it is; the obstacle
    never passes the test of line 127 again however far it moves, and
    obstacles that are all passed bring no score.  The flag never goes back
    to [false]: the effect leaves every obstacle of the list in its place
    with the flag unchanged or set, and the frame copies it.  Before the
    frame every obstacle left of [birdLeft] was passed already, so that an
    obstacle is in this position only in the run of the effect that follows
    the frame on which it crosses. *)
Theorem passing_scores_once :
  forall (random : number) (s : Game) (pipe : Pipe),
    played s ->
    0 <= random < 1 ->
    gameState s = playing ->
    In pipe (pipes (frame random s)) ->
    passed pipe = false ->
    x pipe + PIPE_WIDTH < birdLeft ->
    gameState (evaluate (frame random s)) = playing /\
    pipes (evaluate (frame random s)) = map settled (pipes (frame random s)) /\
    settled pipe = markPassed pipe /\
    In (markPassed pipe) (pipes (evaluate (frame random s))) /\
    score (evaluate (frame random s)) = (score s + 1)%Z /\
    score (evaluate (evaluate (frame random s)))
      = score (evaluate (frame random s)) /\
    (forall k : nat,
       justPassed (Nat.iter k movePipe (markPassed pipe)) = false) /\
    (forall (y : number) (ps : list Pipe),
       Forall (fun q => passed q = true) ps ->
       gained (pipeLoop y ps) = 0%Z) /\
    (forall u : Game, Forall2 sameObstacle (pipes u) (pipes (evaluate u))) /\
    (forall q : Pipe, passed (movePipe q) = passed q) /\
    (forall q : Pipe,
       In q (pipes s) -> x q + PIPE_WIDTH < birdLeft -> passed q = true).
Proof.
  intros random s pipe Hplayed Hrandom Hplay Hin Hflag Hpast.
  pose proof (played_sound s Hplayed) as Hsound.
  assert (Hbefore : forall q : Pipe,
            In q (pipes s) -> x q + PIPE_WIDTH < birdLeft -> passed q = true).
  { intros q Hq Hleft.
    destruct (sound_playing s Hsound Hplay) as [_ Hsafe].
    apply (safe_passed _ _ q (Hsafe q Hq)).
    unfold PIPE_WIDTH, birdLeft in Hleft. lra. }
  assert (Hjust : justPassed pipe = true)
    by (apply justPassed_true; auto).
  destruct (passing_frame_clear random s pipe Hsound Hrandom Hplay Hin Hjust)
    as (Hedge & Hnone & Hone).
  pose proof (frame_score random s) as Hscore.
  destruct (frame_facts random s Hplay) as (Hplay' & _).
  rewrite (evaluate_idempotent (frame random s)).
  rewrite (evaluate_clear _ Hplay' Hedge Hnone). simpl.
  assert (Hsettled : settled pipe = markPassed pipe)
    by (unfold settled; rewrite Hjust; reflexivity).
  repeat split.
  - exact Hsettled.
  - rewrite <- Hsettled. apply in_map. exact Hin.
  - rewrite Hone, Hscore. reflexivity.
  - intros k. unfold justPassed.
    rewrite movePipe_iter_passed. reflexivity.
  - apply pipeLoop_all_passed.
  - apply evaluate_pipes.
  - exact Hbefore.
Qed.

(** After 151 frames of the flight the first obstacle is at [x = 0]; the
    next frame takes it to [x = -4]. *)
Lemma passing_scores_once_witness :
  In (markPassed leaving) (pipes (evaluate (frame (1 # 2) flight151))) /\
  score (evaluate (frame (1 # 2) flight151)) = (score flight151 + 1)%Z.
Proof.
  destruct flight_log as (_ & _ & _ & _ & Hplay & Hpipes).
  destruct (passing_scores_once (1 # 2) flight151 leaving)
    as (_ & _ & _ & Hmarked & Hscore & _).
  - exact played_flight151.
  - lra.
  - exact Hplay.
  - rewrite Hpipes. left. reflexivity.
  - reflexivity.
  - vm_compute. reflexivity.
  - exact (conj Hmarked Hscore).
Defined.

(** C4 as the specification words it, the leading edge of the bird being its
    right edge [birdRight], fails after 150 frames of the flight: the first
    obstacle, not yet passed, is at [x = 4], its right edge at 84 is left of
    [birdRight] = 130, and the collision effect leaves the state as it is,
    the obstacle unmarked and the score unchanged. *)
Lemma passing_at_leading_edge_counterexample :
  played flight150 /\
  gameState flight150 = playing /\
  In overlapping (pipes flight150) /\
  passed overlapping = false /\
  x overlapping + PIPE_WIDTH < birdRight /\
  evaluate flight150 = flight150 /\
  In overlapping (pipes (evaluate flight150)) /\
  score (evaluate flight150) = score flight150.
Proof.
  destruct flight_log as (Hplay & Hpipes & _).
  pose proof (sound_settled flight150 (played_sound flight150 played_flight150))
    as Hsame.
  assert (Hin : In overlapping (pipes flight150))
    by (rewrite Hpipes; left; reflexivity).
  split; [exact played_flight150 |].
  split; [exact Hplay |].
  split; [exact Hin |].
  split; [reflexivity |].
  split; [vm_compute; reflexivity |].
  split; [exact Hsame |].
  split; rewrite Hsame; [exact Hin | reflexivity].
Qed.

(** ** Restarting after a lost round *)

(** C5.  A key press or click in the [dead] phase puts the bird back at the
    vertical centre of the playfield with velocity zero, empties the list of
    obstacles, sets score and rotation to zero and makes the phase [idle]. *)
Theorem jump_when_dead_resets_round :
  forall s : Game,
    gameState s = dead ->
    gameState (jump s) = idle /\
    birdY (jump s) = GAME_HEIGHT / 2 /\
    birdY (jump s) == 300 /\
    birdVelocity (jump s) = 0 /\
    pipes (jump s) = [] /\
    score (jump s) = 0%Z /\
    birdRotation (jump s) = 0.
Proof.
  intros s Hdead. unfold jump. rewrite Hdead. simpl.
  repeat split; reflexivity.
Qed.

Lemma jump_when_dead_resets_round_witness :
  gameState (jump lostRound) = idle /\
  birdY (jump lostRound) = GAME_HEIGHT / 2 /\
  birdY (jump lostRound) == 300 /\
  birdVelocity (jump lostRound) = 0 /\
  pipes (jump lostRound) = [] /\
  score (jump lostRound) = 0%Z /\
  birdRotation (jump lostRound) = 0.
Proof.
  apply (jump_when_dead_resets_round lostRound).
  reflexivity.
Defined.

(** ** Ceiling and floor *)

(** C6.  While the game is played, the collision effect ends the round when
    the top of the bird is at or above the top of the playfield or its
    bottom at or below the bottom of the playfield.  In particular a frame
    that drives the bird down to the floor leaves it at exactly
    [GAME_HEIGHT - BIRD_SIZE], and the effect that follows ends the round. *)
Theorem boundary_ends_round :
  forall (random : number) (s : Game),
    gameState s = playing ->
    (birdY s <= 0 \/ GAME_HEIGHT <= birdY s + BIRD_SIZE ->
     gameState (evaluate s) = dead) /\
    (GAME_HEIGHT - BIRD_SIZE <= birdY s + birdVelocity s ->
     birdY (frame random s) == GAME_HEIGHT - BIRD_SIZE /\
     gameState (evaluate (frame random s)) = dead).
Proof.
  intros random s Hplay. split.
  - intros Hedge. apply evaluate_boundary; [exact Hplay |].
    apply hitsBoundary_true. exact Hedge.
  - intros Hfloor.
    assert (Hy : birdY (frame random s) == GAME_HEIGHT - BIRD_SIZE).
    { rewrite (frame_playing random s Hplay). simpl.
      apply clamp_high; [vm_compute; discriminate | exact Hfloor]. }
    split; [exact Hy |].
    apply evaluate_boundary.
    + rewrite frame_gameState. exact Hplay.
    + apply hitsBoundary_true. right. rewrite Hy. lra.
Qed.

Lemma boundary_ends_round_witness :
  gameState (evaluate (frame 0 nearFloor)) = dead.
Proof.
  apply (boundary_ends_round 0 nearFloor); [reflexivity |].
  vm_compute. discriminate.
Defined.

(** ** Obstacles that left the screen *)

(** C7.  After a frame every obstacle of the list has [x > -PIPE_WIDTH], that
    is [x > -80]: an obstacle of the list whose new position is at or below
    [-PIPE_WIDTH] is not in the new list, whose elements are the moved
    obstacles that were kept and, possibly, the one just spawned.  This holds
    on in every state the component goes through afterwards, so that all
    obstacles of a later list are strictly to the right of the position at
    which the obstacle was dropped: it does not come back. *)
Theorem offscreen_pipes_are_removed :
  forall (random : number) (s : Game),
    gameState s = playing ->
    (forall q : Pipe,
       In q (pipes (frame random s)) ->
       - PIPE_WIDTH < x q /\ - 80 < x q /\
       (q = newPipe random \/
        exists p : Pipe, In p (pipes s) /\ q = movePipe p)) /\
    (forall p : Pipe,
       In p (pipes s) ->
       x (movePipe p) <= - PIPE_WIDTH ->
       ~ In (movePipe p) (pipes (frame random s)) /\
       forall t : Game,
         steps (frame random s) t ->
         forall q : Pipe, In q (pipes t) -> x (movePipe p) < x q).
Proof.
  intros random s Hplay.
  pose proof (frame_allOnScreen random s Hplay) as Hall.
  split.
  - intros q Hq.
    pose proof (proj1 (allOnScreen_In _) Hall q Hq) as Hon.
    split; [exact Hon |]. split; [exact Hon |].
    rewrite (frame_playing random s Hplay) in Hq.
    apply gameLoop_pipes_origin in Hq.
    destruct Hq as [-> | (p & Hp & -> & _)]; [left; reflexivity |].
    right. exists p. auto.
  - intros p Hp Hoff. split.
    + intros Hin.
      pose proof (proj1 (allOnScreen_In _) Hall _ Hin) as Hon.
      exact (Qlt_not_le _ _ Hon Hoff).
    + intros t Hsteps q Hq.
      pose proof (steps_allOnScreen _ _ Hsteps Hall) as Hall'.
      pose proof (proj1 (allOnScreen_In _) Hall' q Hq) as Hon.
      exact (Qle_lt_trans _ _ _ Hoff Hon).
Qed.

Lemma offscreen_pipes_are_removed_witness :
  ~ In (movePipe leavingPipe) (pipes (frame (1 # 2) spawnDue)) /\
  forall q : Pipe,
    In q (pipes (frame 0 (evaluate (frame (1 # 2) spawnDue)))) ->
    x (movePipe leavingPipe) < x q.
Proof.
  destruct (offscreen_pipes_are_removed (1 # 2) spawnDue eq_refl)
    as [_ Hgone].
  destruct (Hgone leavingPipe) as [Hout Hlater].
  - simpl. right. left. reflexivity.
  - vm_compute. discriminate.
  - split; [exact Hout |].
    apply Hlater.
    eapply steps_snoc; [| apply step_frame; lra].
    eapply steps_snoc; [| apply step_evaluate].
    apply steps_refl.
Defined.

(** ** Spawning obstacles *)

(** C8.  In a frame where the accumulator, once advanced by [PIPE_SPEED],
    exceeds 200, the accumulator is set back to zero and the list of
    obstacles becomes the obstacles kept by the frame followed by exactly one
    new obstacle; this obstacle is at [x = GAME_WIDTH], is not passed, and for
    a draw in [0, 1) its gap satisfies 75 <= gapY and
    gapY + 180 + 75 <= 600. *)
Theorem spawn_appends_one_pipe :
  forall (random : number) (s : Game),
    gameState s = playing ->
    200 < lastPipe s + PIPE_SPEED ->
    0 <= random < 1 ->
    lastPipe (frame random s) = 0 /\
    pipes (frame random s) =
      filter onScreen (map movePipe (pipes s)) ++ [newPipe random] /\
    x (newPipe random) = GAME_WIDTH /\
    passed (newPipe random) = false /\
    75 <= gapY (newPipe random) /\
    gapY (newPipe random) + 180 + 75 <= 600.
Proof.
  intros random s Hplay Hover Hrandom.
  rewrite (frame_playing random s Hplay). simpl.
  apply ltb_lt in Hover. rewrite Hover.
  repeat split; try reflexivity;
    apply (newPipe_gap_fits random Hrandom).
Qed.

Lemma spawn_appends_one_pipe_witness :
  lastPipe (frame (1 # 2) spawnDue) = 0 /\
  pipes (frame (1 # 2) spawnDue) =
    filter onScreen (map movePipe (pipes spawnDue)) ++ [newPipe (1 # 2)] /\
  x (newPipe (1 # 2)) = GAME_WIDTH /\
  passed (newPipe (1 # 2)) = false /\
  75 <= gapY (newPipe (1 # 2)) /\
  gapY (newPipe (1 # 2)) + 180 + 75 <= 600.
Proof.
  apply (spawn_appends_one_pipe (1 # 2) spawnDue).
  - reflexivity.
  - vm_compute. reflexivity.
  - split; vm_compute; [discriminate | reflexivity].
Defined.

(** ** The best score *)

(** C9.  The best score never decreases along a run of the component.  Key
    presses (the restart from [dead] to [idle] included) and frames leave it
    as it is.  The collision effect changes it only when it ends the round,
    and then writes the score of the render the effect belongs to exactly
    when that score is strictly greater than the stored best score.  In a
    played game the run of the effect that ends the round brings no score,
    so that this score is the final score of the round and the best score
    becomes the greater of the two. *)
Theorem highScore_never_decreases :
  forall (random : number) (s t : Game),
    steps s t ->
    (highScore s <= highScore t)%Z /\
    highScore (jump t) = highScore t /\
    highScore (frame random t) = highScore t /\
    highScore (evaluate t) =
      (if GameState_eqb (gameState t) playing
          && GameState_eqb (gameState (evaluate t)) dead
       then if (highScore t <? score t)%Z then score t else highScore t
       else highScore t) /\
    (played t ->
     0 <= random < 1 ->
     gameState t = playing ->
     gameState (tick random t) = dead ->
     score (tick random t) = score t /\
     highScore (tick random t) = Z.max (highScore t) (score t)).
Proof.
  intros random s t Hsteps. split.
  - induction Hsteps as [s | s t u _ IH Hstep]; [lia |].
    apply step_highScore in Hstep. lia.
  - split; [apply jump_highScore |].
    split; [apply frame_highScore |].
    split; [apply evaluate_highScore |].
    intros Hplayed Hrandom Hplay Hlost. unfold tick in *.
    split.
    + apply lost_round_score; auto. apply played_sound. exact Hplayed.
    + rewrite evaluate_highScore, Hlost, frame_gameState, Hplay. simpl.
      unfold newHighScore. rewrite frame_highScore, frame_score.
      destruct (Z.ltb_spec (highScore t) (score t)); lia.
Qed.

(** The best score of [beatenBest] through the effect and a restart, and
    the round lost on the ceiling after thirty jumps. *)
Lemma highScore_never_decreases_witness :
  (highScore beatenBest <= highScore (jump (evaluate beatenBest)))%Z /\
  highScore (evaluate beatenBest) = 5%Z /\
  score (tick 0 (press (climb 29))) = score (press (climb 29)) /\
  highScore (tick 0 (press (climb 29)))
    = Z.max (highScore (press (climb 29))) (score (press (climb 29))).
Proof.
  split; [| split].
  - apply (highScore_never_decreases 0 beatenBest (jump (evaluate beatenBest))).
    eapply steps_snoc; [| apply step_jump].
    eapply steps_snoc; [| apply step_evaluate].
    apply steps_refl.
  - reflexivity.
  - destruct (highScore_never_decreases 0 initial (press (climb 29)))
      as (_ & _ & _ & _ & Hlost).
    + apply played_reachable, played_press, played_climb.
    + apply Hlost.
      * apply played_press, played_climb.
      * lra.
      * vm_compute. reflexivity.
      * vm_compute. reflexivity.
Defined.

(** ** The spawn accumulator across rounds *)

(** C10.  A key press or click in the [dead] phase does not touch the spawn
    accumulator.  The next round therefore starts counting from the value
    the lost round left: after the press that starts it, its frames leave
    the list of obstacles empty as long as that value plus four pixels for
    each frame is at most 200, and the first frame that takes the sum above
    200 spawns the first obstacle. *)
Theorem restart_keeps_lastPipe :
  forall (s : Game) (randoms : list number) (random : number),
    gameState s = dead ->
    lastPipe (jump s) = lastPipe s /\
    (lastPipe s + PIPE_SPEED * inject_Z (Z.of_nat (length randoms)) <= 200 ->
     pipes (frames randoms (jump (jump s))) = [] /\
     (200 < lastPipe s
            + PIPE_SPEED * inject_Z (Z.of_nat (length (randoms ++ [random]))) ->
      pipes (frames (randoms ++ [random]) (jump (jump s)))
        = [newPipe random])).
Proof.
  intros s randoms random Hdead.
  split; [apply jump_lastPipe |].
  intros Hbefore.
  assert (Hstart : gameState (jump (jump s)) = playing
                   /\ pipes (jump (jump s)) = []
                   /\ lastPipe (jump (jump s)) = lastPipe s).
  { unfold jump. rewrite Hdead. simpl. auto. }
  destruct Hstart as (Hplay & Hnone & Hlast).
  destruct (frames_before_first_spawn randoms (jump (jump s)) Hplay Hnone)
    as (Hplay' & Hnone' & Hlast').
  { rewrite Hlast. exact Hbefore. }
  split; [exact Hnone' |].
  intros Hdue.
  rewrite frames_snoc, (frame_playing _ _ Hplay'). simpl.
  rewrite Hnone'. simpl.
  assert (Hyes : (200 <? lastPipe (frames randoms (jump (jump s))) + PIPE_SPEED)
                 = true).
  { apply ltb_lt. rewrite Hlast', Hlast.
    rewrite length_app, Nat.add_comm in Hdue. simpl length in Hdue.
    rewrite Nat2Z.inj_succ in Hdue. unfold Z.succ in Hdue.
    rewrite inject_Z_plus in Hdue. change (inject_Z 1) with 1 in Hdue.
    unfold PIPE_SPEED in *. lra. }
  rewrite Hyes. reflexivity.
Qed.

Lemma restart_keeps_lastPipe_witness :
  lastPipe (jump lostRound) = lastPipe lostRound /\
  pipes (frames [] (jump (jump lostRound))) = [] /\
  pipes (frames [1 # 2] (jump (jump lostRound))) = [newPipe (1 # 2)].
Proof.
  destruct (restart_keeps_lastPipe lostRound [] (1 # 2) eq_refl)
    as [Hkept Hnext].
  destruct Hnext as [Hempty Hfirst]; [vm_compute; discriminate |].
  split; [exact Hkept |].
  split; [exact Hempty |].
  apply Hfirst. vm_compute. reflexivity.
Defined.

(** * Further properties of the code *)

(** ** The phases *)

Lemma evaluate_birdRotation (s : Game) :
  birdRotation (evaluate s) = birdRotation s.
Proof.
  unfold evaluate.
  destruct (gameState s); try reflexivity.
  destruct (hitsBoundary (birdY s)); reflexivity.
Qed.

Lemma frame_not_playing (random : number) (s : Game) :
  gameState s <> playing -> frame random s = s.
Proof.
  intros Hnot. unfold frame.
  destruct (gameState s); try reflexivity. congruence.
Qed.

(** X1.  The phase only moves round the cycle idle, playing, dead, idle.
    In the [idle] and [dead] phases a frame and the collision effect change
    nothing at all, and a key press or click is the only way out, to
    [playing] and to [idle]; the [playing] phase is left only by the
    collision effect, for [dead]. *)
Theorem phase_cycle :
  forall s t : Game,
    step s t ->
    (gameState s = idle ->
     t = s \/ (t = jump s /\ gameState t = playing)) /\
    (gameState s = playing ->
     gameState t = playing \/ (t = evaluate s /\ gameState t = dead)) /\
    (gameState s = dead ->
     t = s \/ (t = jump s /\ gameState t = idle)).
Proof.
  intros s t [u | random u _ | u]; repeat split; intros Hphase.
  - right. split; [reflexivity |]. unfold jump. rewrite Hphase. reflexivity.
  - left. unfold jump. rewrite Hphase. reflexivity.
  - right. split; [reflexivity |]. unfold jump. rewrite Hphase. reflexivity.
  - left. apply frame_not_playing. congruence.
  - left. rewrite frame_gameState. exact Hphase.
  - left. apply frame_not_playing. congruence.
  - left. apply evaluate_not_playing. congruence.
  - destruct (evaluate_dead_or_playing u Hphase) as [Hgo | Hlost]; auto.
  - left. apply evaluate_not_playing. congruence.
Qed.

Lemma phase_cycle_witness :
  jump initial = initial \/
  (jump initial = jump initial /\ gameState (jump initial) = playing).
Proof.
  exact (proj1 (phase_cycle initial (jump initial) (step_jump initial))
           eq_refl).
Defined.

(** ** Key presses and clicks *)

Lemma jump_jump (s : Game) : gameState s <> dead -> jump (jump s) = jump s.
Proof.
  intros Hnot. unfold jump.
  destruct (gameState s); simpl; try reflexivity. congruence.
Qed.

Lemma jump_not_dead (s : Game) :
  gameState s <> dead -> gameState (jump s) = playing.
Proof.
  intros Hnot. unfold jump.
  destruct (gameState s); simpl; try reflexivity. congruence.
Qed.

Lemma handleEvents_from_playing (es : list Event) (s : Game) :
  gameState s = playing ->
  handleEvents es s = if existsb isJumpEvent es then jump s else s.
Proof.
  revert s. induction es as [| e es IH]; intros s Hplay; [reflexivity |].
  unfold handleEvents in *. simpl.
  assert (Hjump : gameState (jump s) = playing)
    by (apply jump_not_dead; congruence).
  assert (Hagain : jump (jump s) = jump s)
    by (apply jump_jump; congruence).
  destruct e as [code |]; simpl.
  - unfold handleKeyDown. destruct (isJumpKey code); simpl.
    + rewrite (IH (jump s) Hjump), Hagain.
      destruct (existsb isJumpEvent es); reflexivity.
    + apply IH. exact Hplay.
  - rewrite (IH (jump s) Hjump), Hagain.
    destruct (existsb isJumpEvent es); reflexivity.
Qed.

Lemma handleEvents_not_dead (es : list Event) (s : Game) :
  gameState s <> dead ->
  handleEvents es s = if existsb isJumpEvent es then jump s else s.
Proof.
  intros Hnot. induction es as [| e es IH]; [reflexivity |].
  assert (Hjump : gameState (jump s) = playing)
    by (apply jump_not_dead; exact Hnot).
  assert (Hrest : handleEvents es (jump s) = jump s).
  { rewrite (handleEvents_from_playing es (jump s) Hjump).
    rewrite (jump_jump s Hnot).
    destruct (existsb isJumpEvent es); reflexivity. }
  unfold handleEvents in *. simpl.
  destruct e as [code |]; simpl; [| exact Hrest].
  unfold handleKeyDown. destruct (isJumpKey code); simpl;
    [exact Hrest | exact IH].
Qed.

(** X2.  Outside the [dead] phase any burst of events acts as its last
    write: if the burst has a click or a [keydown] of Space or ArrowUp, the
    hooks end as after one single jump (phase [playing], velocity
    [JUMP_FORCE], position, obstacles, scores and accumulator as they were),
    however many such events and other keys the burst has; if it has none,
    nothing changes.  Other keys are never default-prevented. *)
Theorem events_last_write_wins :
  forall (es : list Event) (s : Game),
    gameState s <> dead ->
    handleEvents es s = (if existsb isJumpEvent es then jump s else s) /\
    gameState (jump s) = playing /\
    birdVelocity (jump s) = JUMP_FORCE /\
    birdY (jump s) = birdY s /\
    pipes (jump s) = pipes s /\
    score (jump s) = score s /\
    highScore (jump s) = highScore s /\
    lastPipe (jump s) = lastPipe s /\
    (forall code : String.string,
       isJumpKey code = false -> handleKeyDown code s = (s, false)).
Proof.
  intros es s Hnot.
  assert (Hfacts : gameState (jump s) = playing /\
                   birdVelocity (jump s) = JUMP_FORCE /\
                   birdY (jump s) = birdY s /\
                   pipes (jump s) = pipes s /\
                   score (jump s) = score s /\
                   highScore (jump s) = highScore s /\
                   lastPipe (jump s) = lastPipe s).
  { unfold jump. destruct (gameState s); simpl; try congruence;
      repeat split; reflexivity. }
  split; [apply handleEvents_not_dead; exact Hnot |].
  repeat split; try apply Hfacts.
  intros code Hother. unfold handleKeyDown. rewrite Hother. reflexivity.
Qed.

(** Four events on the start screen: the left arrow key, a click, the space
    bar and the up arrow key. *)
Lemma events_last_write_wins_witness :
  handleEvents [KeyDown "ArrowLeft"%string; Click; KeyDown "Space"%string;
     KeyDown "ArrowUp"%string]
    initial = jump initial.
Proof.
  destruct (events_last_write_wins
              [KeyDown "ArrowLeft"%string; Click; KeyDown "Space"%string;
     KeyDown "ArrowUp"%string]
              initial) as [Hburst _]; [discriminate |].
  exact Hburst.
Defined.

(** ** The collision effect *)

(** X3.  The collision effect is idempotent: run again on its own result,
    as React does when it has written [score], [highScore] or [gameState],
    it changes nothing.  It never writes the position, the velocity, the
    rotation or the accumulator, and it keeps the obstacles in place, with
    their positions and gaps. *)
Theorem effect_runs_once :
  forall s : Game,
    evaluate (evaluate s) = evaluate s /\
    birdY (evaluate s) = birdY s /\
    birdVelocity (evaluate s) = birdVelocity s /\
    birdRotation (evaluate s) = birdRotation s /\
    lastPipe (evaluate s) = lastPipe s /\
    map x (pipes (evaluate s)) = map x (pipes s) /\
    map gapY (pipes (evaluate s)) = map gapY (pipes s).
Proof.
  intros s.
  split; [apply evaluate_idempotent |].
  split; [apply evaluate_birdY |].
  split; [apply evaluate_birdVelocity |].
  split; [apply evaluate_birdRotation |].
  split; [apply evaluate_lastPipe |].
  split; [apply evaluate_pipes_x |].
  generalize (evaluate_pipes s).
  induction 1 as [| p q ps qs (_ & Hgap & _) _ IH]; simpl; congruence.
Qed.

(** ** The score *)

Lemma evaluate_score (s : Game) : (score s <= score (evaluate s))%Z.
Proof.
  unfold evaluate. destruct (gameState s); try lia.
  destruct (hitsBoundary (birdY s)); simpl; [lia |].
  pose proof (pipeLoop_gained_bound (birdY s) (pipes s)). lia.
Qed.

Lemma step_score (s t : Game) :
  step s t ->
  (score s <= score t)%Z \/
  (gameState s = dead /\ t = jump s /\ score t = 0%Z).
Proof.
  intros [u | random u _ | u].
  - destruct (gameState u) eqn:Hphase.
    + left. unfold jump. rewrite Hphase. simpl. lia.
    + left. unfold jump. rewrite Hphase. simpl. lia.
    + right. repeat split. unfold jump. rewrite Hphase. reflexivity.
  - left. rewrite frame_score. lia.
  - left. apply evaluate_score.
Qed.

Lemma reachable_score (s : Game) : reachable s -> (0 <= score s)%Z.
Proof.
  unfold reachable. intros Hsteps.
  remember initial as s0 eqn:Hs0.
  induction Hsteps as [s | s t u _ IH Hstep]; subst; [simpl; lia |].
  specialize (IH eq_refl).
  destruct (step_score t u Hstep) as [Hup | (_ & _ & Hzero)]; lia.
Qed.

(** X4.  The score is a natural number that never decreases within a round:
    in a state the component can reach it is not negative, and an operation
    either leaves it as it is or raises it, unless it is the key press or
    click that restarts from [dead], which sets it to zero. *)
Theorem score_only_grows :
  forall s t : Game,
    reachable s ->
    step s t ->
    (0 <= score s)%Z /\
    (0 <= score t)%Z /\
    ((score s <= score t)%Z \/
     (gameState s = dead /\ t = jump s /\ score t = 0%Z)).
Proof.
  intros s t Hreach Hstep.
  pose proof (reachable_score s Hreach) as Hs.
  pose proof (step_score s t Hstep) as Hmove.
  repeat split; try assumption.
  destruct Hmove as [Hup | (_ & _ & Hzero)]; lia.
Qed.

Lemma score_only_grows_witness :
  (0 <= score (jump initial))%Z /\
  (0 <= score (frame 0 (jump initial)))%Z.
Proof.
  destruct (score_only_grows (jump initial) (frame 0 (jump initial)))
    as (Hs & Ht & _).
  - eapply steps_snoc; [apply steps_refl | apply step_jump].
  - apply step_frame. lra.
  - exact (conj Hs Ht).
Defined.

(** ** Played games *)

(** X5.  Every state of a played game is settled: running the collision
    effect on it changes nothing.  While the phase is [playing] the bird is
    strictly between ceiling and floor, it is within the gap of every
    obstacle that overlaps it, and every obstacle whose right edge is left
    of [birdLeft] has its flag set. *)
Theorem played_states_are_settled :
  forall s : Game,
    played s ->
    evaluate s = s /\
    (gameState s = playing ->
     0 < birdY s < GAME_HEIGHT - BIRD_SIZE /\
     forall pipe : Pipe,
       In pipe (pipes s) ->
       (x pipe < birdRight /\ birdLeft < x pipe + PIPE_WIDTH ->
        gapY pipe <= birdY s /\
        birdY s + BIRD_SIZE <= gapY pipe + PIPE_GAP) /\
       (x pipe + PIPE_WIDTH < birdLeft -> passed pipe = true)).
Proof.
  intros s Hplayed.
  pose proof (played_sound s Hplayed) as Hsound.
  split; [apply sound_settled; exact Hsound |].
  intros Hphase.
  destruct (sound_playing s Hsound Hphase) as [Hy Hsafe].
  split; [unfold GAME_HEIGHT, BIRD_SIZE; lra |].
  intros pipe Hpipe. split.
  - intros [Hleft Hright].
    destruct (safe_inside _ _ pipe (Hsafe pipe Hpipe)) as (Htop & Hbottom & _);
      [| auto].
    unfold birdRight, birdLeft, BIRD_SIZE, PIPE_WIDTH in *. lra.
  - intros Hpast. apply (safe_passed _ _ pipe (Hsafe pipe Hpipe)).
    unfold PIPE_WIDTH, birdLeft in Hpast. lra.
Qed.

Lemma played_states_are_settled_witness :
  evaluate flight150 = flight150 /\
  gapY overlapping <= birdY flight150.
Proof.
  destruct flight_log as (Hplay & Hpipes & _).
  destruct (played_states_are_settled flight150 played_flight150)
    as [Hsame Hgo].
  split; [exact Hsame |].
  destruct (Hgo Hplay) as [_ Hall].
  assert (Hover : x overlapping < birdRight /\
                  birdLeft < x overlapping + PIPE_WIDTH)
    by (split; vm_compute; reflexivity).
  assert (Hin : In overlapping (pipes flight150))
    by (rewrite Hpipes; left; reflexivity).
  exact (proj1 (proj1 (Hall overlapping Hin) Hover)).
Defined.

Lemma tick_score (random : number) (s : Game) :
  sound s ->
  0 <= random < 1 ->
  (score s <= score (tick random s) <= score s + 1)%Z.
Proof.
  intros Hsound Hrandom. unfold tick.
  destruct (gameState s) eqn:Hphase;
    try (rewrite frame_not_playing, evaluate_not_playing by congruence; lia).
  destruct (frame_facts random s Hphase) as (Hplay' & _).
  pose proof (frame_score random s) as Hscore.
  pose proof (pipeLoop_gained_bound (birdY (frame random s))
                (pipes (frame random s))) as Hbound.
  assert (Hone : (length (filter justPassed (pipes (frame random s))) <= 1)%nat).
  { destruct (filter justPassed (pipes (frame random s))) as [| pipe rest]
      eqn:Hpassing; [simpl; lia |].
    assert (Hpipe : In pipe (filter justPassed (pipes (frame random s))))
      by (rewrite Hpassing; left; reflexivity).
    apply filter_In in Hpipe. destruct Hpipe as [Hin Hjust].
    destruct (passing_frame_clear random s pipe Hsound Hrandom Hphase Hin Hjust)
      as (_ & _ & Hlen).
    rewrite Hpassing in Hlen. rewrite Hlen. lia. }
  unfold evaluate. rewrite Hplay'.
  destruct (hitsBoundary (birdY (frame random s))); simpl; lia.
Qed.

(** X6.  In a played game a frame and the run of the collision effect that
    follows raise the score by one at most. *)
Theorem score_grows_by_one_at_most :
  forall (random : number) (s : Game),
    played s ->
    0 <= random < 1 ->
    (score s <= score (tick random s) <= score s + 1)%Z.
Proof.
  intros random s Hplayed Hrandom.
  apply tick_score; [apply played_sound; exact Hplayed | exact Hrandom].
Qed.

Lemma score_grows_by_one_at_most_witness :
  (score flight151 <= score (tick (1 # 2) flight151)
   <= score flight151 + 1)%Z.
Proof.
  assert (Hrandom : 0 <= 1 # 2 < 1) by lra.
  exact (score_grows_by_one_at_most (1 # 2) flight151 played_flight151
           Hrandom).
Defined.

Lemma played_bestCovers (s : Game) : played s -> bestCovers s.
Proof.
  induction 1 as [| s Hplayed IH | random s Hrandom Hplayed IH].
  - repeat split; simpl; intros; try lia; try discriminate.
  - pose proof (played_sound s Hplayed) as Hsound.
    destruct IH as (Hbest & Hidle & Hdead). unfold press.
    destruct (gameState s) eqn:Hphase.
    + (* the round starts *)
      pose proof (sound_settled _ (sound_press s Hsound)) as Hsame.
      unfold press in Hsame. rewrite Hphase in Hsame.
      rewrite evaluate_idempotent in Hsame.
      assert (Hgo : gameState (jump s) = playing)
        by (apply jump_not_dead; congruence).
      destruct (sound_idle s Hsound Hphase) as [Hnone Hcentre].
      assert (Hedge : hitsBoundary (birdY (jump s)) = false).
      { unfold jump. rewrite Hphase. simpl.
        apply hitsBoundary_false. unfold BIRD_SIZE, GAME_HEIGHT. lra. }
      assert (Hclear : existsb (hitsPipe (birdY (jump s))) (pipes (jump s))
                       = false).
      { unfold jump. rewrite Hphase. simpl. rewrite Hnone. reflexivity. }
      rewrite (evaluate_clear _ Hgo Hedge Hclear).
      repeat split; simpl; try discriminate.
      rewrite jump_highScore. exact Hbest.
    + unfold jump. rewrite Hphase.
      repeat split; simpl; try discriminate. exact Hbest.
    + rewrite evaluate_not_playing
        by (unfold jump; rewrite Hphase; discriminate).
      unfold jump. rewrite Hphase.
      repeat split; simpl; try discriminate; auto.
  - pose proof (played_sound s Hplayed) as Hsound.
    destruct IH as (Hbest & Hidle & Hdead). unfold tick.
    destruct (gameState s) eqn:Hphase;
      try (rewrite frame_not_playing, evaluate_not_playing by congruence;
           unfold bestCovers; rewrite Hphase; auto).
    destruct (frame_facts random s Hphase) as (Hplay' & _).
    repeat split.
    + pose proof (step_highScore _ _ (step_evaluate (frame random s))).
      rewrite frame_highScore in *. lia.
    + intros Hnow. rewrite (evaluate_gameState _ Hplay') in Hnow.
      destruct (_ || _); discriminate.
    + intros Hlost.
      rewrite (lost_round_score random s Hsound Hrandom Hphase Hlost).
      rewrite evaluate_highScore, Hlost, Hplay'. simpl.
      unfold newHighScore. rewrite frame_highScore, frame_score.
      destruct (Z.ltb_spec (highScore s) (score s)); lia.
Qed.

(** X7.  In a played game the best score is never negative, and whenever no
    round is being played it is at least the score: zero on the start
    screen, the final score of the round on the death screen. *)
Theorem best_score_covers_lost_round :
  forall s : Game,
    played s ->
    gameState s <> playing ->
    (0 <= score s <= highScore s)%Z /\
    (gameState s = idle -> score s = 0%Z).
Proof.
  intros s Hplayed Hnot.
  destruct (played_bestCovers s Hplayed) as (Hbest & Hidle & Hdead).
  pose proof (reachable_score s (played_reachable s Hplayed)) as Hscore.
  split; [| exact Hidle].
  destruct (gameState s); try congruence.
  - rewrite Hidle by reflexivity. lia.
  - split; [exact Hscore | apply Hdead; reflexivity].
Qed.

Lemma best_score_covers_lost_round_witness :
  (0 <= score (tick 0 (press (climb 29)))
   <= highScore (tick 0 (press (climb 29))))%Z.
Proof.
  apply (best_score_covers_lost_round (tick 0 (press (climb 29)))).
  - apply played_tick; [lra |]. apply played_press, played_climb.
  - vm_compute. discriminate.
Defined.

(** ** Velocity and rotation *)

Lemma frame_velocity (random : number) (s : Game) :
  birdVelocity s <= birdVelocity (frame random s).
Proof.
  unfold frame. destruct (gameState s); simpl; try apply Qle_refl.
  unfold GRAVITY. lra.
Qed.

Lemma frames_velocity (randoms : list number) (s : Game) :
  birdVelocity s <= birdVelocity (frames randoms s).
Proof.
  induction randoms as [| random randoms IH] using rev_ind;
    [apply Qle_refl |].
  rewrite frames_snoc.
  exact (Qle_trans _ _ _ IH (frame_velocity random (frames randoms s))).
Qed.

(** X8.  The velocity is never below the jump impulse in a state the
    component can reach, and only a key press or click can lower it: a frame
    and the collision effect never do, nor does any number of frames in a
    row. *)
Theorem velocity_falls_only_at_a_jump :
  forall (randoms : list number) (s t : Game),
    reachable s ->
    step s t ->
    JUMP_FORCE <= birdVelocity s /\
    JUMP_FORCE <= birdVelocity t /\
    (birdVelocity s <= birdVelocity t \/ t = jump s) /\
    birdVelocity s <= birdVelocity (frames randoms s).
Proof.
  intros randoms s t Hreach Hstep.
  pose proof (reachable_basic s Hreach) as Hbasic.
  split; [apply Hbasic |].
  split; [apply (step_basic s t Hstep Hbasic) |].
  split; [| apply frames_velocity].
  destruct Hstep as [u | random u _ | u].
  - right. reflexivity.
  - left. apply frame_velocity.
  - left. rewrite evaluate_birdVelocity. apply Qle_refl.
Qed.

Lemma velocity_falls_only_at_a_jump_witness :
  JUMP_FORCE <= birdVelocity (frame 0 (jump initial)) /\
  birdVelocity (jump initial)
    <= birdVelocity (frames [0; 0; 0] (jump initial)).
Proof.
  destruct (velocity_falls_only_at_a_jump [0; 0; 0] (jump initial)
              (frame 0 (jump initial))) as (_ & Hafter & _ & Hframes).
  - eapply steps_snoc; [apply steps_refl | apply step_jump].
  - apply step_frame. lra.
  - exact (conj Hafter Hframes).
Defined.

Ltac rotation_cases z :=
  let m := fresh "m" in
  let M := fresh "M" in
  generalize (Q.min_spec 90 (Qmax (-30) z)) (Q.max_spec (-30) z);
  set (M := Qmax (-30) z); set (m := Qmin 90 M); clearbody m; clearbody M;
  intros [[? ?] | [? ?]] [[? ?] | [? ?]]; intros; lra.

Lemma rotation_range (z : number) :
  -30 <= Qmin 90 (Qmax (-30) z) <= 90.
Proof. rotation_cases z. Qed.

Lemma rotation_value (z : number) :
  -30 <= z -> Qmin 90 (Qmax (-30) z) == Qmin 90 z.
Proof.
  intros Hz. generalize (Q.min_spec 90 z).
  set (n := Qmin 90 z). clearbody n. intros [[? ?] | [? ?]];
    rotation_cases z.
Qed.

Lemma step_rotation (s t : Game) :
  step s t -> -30 <= birdRotation s <= 90 -> -30 <= birdRotation t <= 90.
Proof.
  intros [u | random u _ | u] Hrange.
  - unfold jump. destruct (gameState u); simpl; try exact Hrange. lra.
  - unfold frame. destruct (gameState u); simpl; try exact Hrange.
    apply rotation_range.
  - rewrite evaluate_birdRotation. exact Hrange.
Qed.

Lemma reachable_rotation (s : Game) :
  reachable s -> -30 <= birdRotation s <= 90.
Proof.
  unfold reachable. intros Hsteps.
  remember initial as s0 eqn:Hs0.
  induction Hsteps as [s | s t u _ IH Hstep]; subst; [simpl; lra |].
  exact (step_rotation t u Hstep (IH eq_refl)).
Qed.

(** X9.  The rotation of the bird stays between -30 and 90 degrees in every
    state the component can reach.  A frame sets it to three times the
    velocity the frame started with, cut at 90: the lower bound of the clamp
    is only ever met, at a jump, never crossed. *)
Theorem rotation_follows_velocity :
  forall (random : number) (s : Game),
    reachable s ->
    -30 <= birdRotation s <= 90 /\
    (gameState s = playing ->
     birdRotation (frame random s) == Qmin 90 (birdVelocity s * 3) /\
     (birdVelocity s <= 30 ->
      birdRotation (frame random s) == birdVelocity s * 3) /\
     (30 <= birdVelocity s -> birdRotation (frame random s) == 90)).
Proof.
  intros random s Hreach.
  split; [apply reachable_rotation; exact Hreach |].
  intros Hplay.
  pose proof (basic_velocity s (reachable_basic s Hreach)) as Hv.
  assert (Hvalue : birdRotation (frame random s)
                   == Qmin 90 (birdVelocity s * 3)).
  { rewrite (frame_playing random s Hplay). simpl.
    apply rotation_value. unfold JUMP_FORCE in Hv. lra. }
  split; [exact Hvalue |].
  generalize (Q.min_spec 90 (birdVelocity s * 3)).
  rewrite Hvalue.
  set (m := Qmin 90 (birdVelocity s * 3)). clearbody m.
  intros [[? ?] | [? ?]]; split; intros; lra.
Qed.

Lemma rotation_follows_velocity_witness :
  birdRotation (frame 0 (jump initial)) == birdVelocity (jump initial) * 3.
Proof.
  destruct (rotation_follows_velocity 0 (jump initial)) as [_ Hframe].
  - eapply steps_snoc; [apply steps_refl | apply step_jump].
  - destruct (Hframe eq_refl) as (_ & Hlow & _).
    apply Hlow. vm_compute. discriminate.
Defined.

(** ** The obstacles on screen *)

Lemma reachable_allOnScreen (s : Game) : reachable s -> allOnScreen s.
Proof.
  intros Hreach. apply (steps_allOnScreen initial s Hreach). constructor.
Qed.

Lemma spaced_bounded (ps : list Pipe) :
  spaced ps ->
  (forall p : Pipe, In p ps -> - PIPE_WIDTH < x p <= GAME_WIDTH) ->
  (length ps <= 3)%nat.
Proof.
  intros Hspaced Hrange.
  destruct ps as [| a [| b [| c [| d rest]]]]; simpl; try lia.
  exfalso.
  destruct Hspaced as (Ha & Hb & Hc & _).
  apply Forall_inv in Ha, Hc. apply Forall_inv in Hb.
  pose proof (Hrange a (or_introl eq_refl)) as Hxa.
  pose proof (Hrange d (or_intror (or_intror (or_intror (or_introl eq_refl)))))
    as Hxd.
  unfold PIPE_WIDTH, GAME_WIDTH in *. lra.
Qed.

(** X10.  In every state the component can reach the list holds three
    obstacles at most, each with [-PIPE_WIDTH < x <= GAME_WIDTH] and a gap
    that starts between 75 and 345, and the obstacles are in the order of
    their positions, an older one more than 200 pixels left of a newer
    one. *)
Theorem three_pipes_at_most :
  forall s : Game,
    reachable s ->
    (length (pipes s) <= 3)%nat /\
    spaced (pipes s) /\
    forall pipe : Pipe,
      In pipe (pipes s) ->
      - PIPE_WIDTH < x pipe <= GAME_WIDTH /\ 75 <= gapY pipe <= 345.
Proof.
  intros s Hreach.
  pose proof (reachable_basic s Hreach) as Hbasic.
  pose proof (proj1 (allOnScreen_In s) (reachable_allOnScreen s Hreach))
    as Hon.
  assert (Hrange : forall pipe, In pipe (pipes s) ->
            - PIPE_WIDTH < x pipe <= GAME_WIDTH /\ 75 <= gapY pipe <= 345).
  { intros pipe Hpipe.
    destruct (basic_placed s Hbasic pipe Hpipe) as (Hroom & _ & Hgap).
    pose proof (basic_lastPipe s Hbasic) as Hlast.
    specialize (Hon pipe Hpipe).
    repeat split; try apply Hgap; [exact Hon | lra]. }
  split; [| split; [apply Hbasic | exact Hrange]].
  apply spaced_bounded; [apply Hbasic |].
  intros p Hp. apply Hrange. exact Hp.
Qed.

Lemma reachable_ceilingRun (n : nat) : reachable (ceilingRun n).
Proof.
  unfold reachable.
  induction n as [| n IH]; simpl; [apply steps_refl |].
  eapply steps_snoc; [| apply step_frame; lra].
  eapply steps_snoc; [exact IH | apply step_jump].
Qed.

(** The bound is met at frame 153, when the third obstacle is spawned and
    the first one, at [x = -8], is still in the list. *)
Lemma three_pipes_at_most_witness :
  (length (pipes (ceilingRun 153)) <= 3)%nat /\
  map x (pipes (ceilingRun 153)) = [-8; 196; 400].
Proof.
  split.
  - exact (proj1 (three_pipes_at_most (ceilingRun 153)
                    (reachable_ceilingRun 153))).
  - vm_compute. reflexivity.
Defined.

(** ** The cadence of the obstacles *)

Lemma onLattice_advance (a : number) :
  onLattice a -> onLattice (a + PIPE_SPEED).
Proof.
  intros [k Hk]. exists (k + 1)%Z.
  rewrite Hk. unfold PIPE_SPEED.
  replace (4 * (k + 1))%Z with (4 * k + 4)%Z by lia.
  rewrite inject_Z_plus. reflexivity.
Qed.

Lemma onLattice_origin : onLattice 0.
Proof. exists 0%Z. reflexivity. Qed.

Lemma chainedTo_Qeq (ps : list Pipe) (a b : number) :
  a == b -> chainedTo ps a -> chainedTo ps b.
Proof.
  intros Hab. induction ps as [| p [| q rest] IH]; simpl; auto.
  - intros Hlast. rewrite <- Hab. exact Hlast.
  - intros [Hnext Hrest]. split; [exact Hnext | apply IH; exact Hrest].
Qed.

Lemma chainedTo_move (ps : list Pipe) (a : number) :
  chainedTo ps a -> chainedTo (map movePipe ps) (a + PIPE_SPEED).
Proof.
  induction ps as [| p [| q rest] IH]; simpl; auto.
  - intros Hlast. rewrite <- Hlast. ring.
  - intros [Hnext Hrest]. split; [rewrite Hnext; ring | apply IH; exact Hrest].
Qed.

Lemma chainedTo_tail (p : Pipe) (ps : list Pipe) (a : number) :
  chainedTo (p :: ps) a -> chainedTo ps a.
Proof. destruct ps as [| q rest]; simpl; tauto. Qed.

Lemma chainedTo_kept (ps : list Pipe) (a : number) (p : Pipe) :
  chainedTo (p :: ps) a -> onScreen p = true ->
  filter onScreen (p :: ps) = p :: ps.
Proof.
  revert p. induction ps as [| q rest IH]; intros p Hchain Hon; simpl.
  - rewrite Hon. reflexivity.
  - rewrite Hon. f_equal.
    destruct Hchain as [Hnext Hrest].
    apply (IH q Hrest).
    unfold onScreen in *. apply ltb_lt in Hon. apply ltb_lt.
    rewrite Hnext. lra.
Qed.

Lemma chainedTo_filter (ps : list Pipe) (a : number) :
  chainedTo ps a -> chainedTo (filter onScreen ps) a.
Proof.
  induction ps as [| p rest IH]; [auto |].
  intros Hchain. destruct (onScreen p) eqn:Hon.
  - rewrite (chainedTo_kept rest a p Hchain Hon). exact Hchain.
  - simpl. rewrite Hon. apply IH. exact (chainedTo_tail p rest a Hchain).
Qed.

Lemma chainedTo_snoc (ps : list Pipe) (a : number) (p : Pipe) :
  chainedTo ps a -> a == 204 -> x p == GAME_WIDTH ->
  chainedTo (ps ++ [p]) 0.
Proof.
  intros Hchain Ha Hp.
  induction ps as [| q [| r rest] IH]; simpl in *.
  - rewrite Hp. ring.
  - split; [| rewrite Hp; ring]. rewrite Hp, <- Hchain, Ha. ring.
  - destruct Hchain as [Hnext Hrest]. split; [exact Hnext |].
    apply IH. exact Hrest.
Qed.

Lemma chainedTo_same_x (ps qs : list Pipe) (a : number) :
  map x qs = map x ps -> chainedTo ps a -> chainedTo qs a.
Proof.
  revert qs. induction ps as [| p ps IH]; intros [| q qs] Hx;
    simpl in Hx; try discriminate; [auto |].
  injection Hx as Hq Hqs.
  destruct ps as [| p' ps']; destruct qs as [| q' qs'];
    simpl in Hqs; try discriminate.
  - simpl. rewrite Hq. auto.
  - injection Hqs as Hq' Hqs'.
    intros [Hnext Hrest]. split; [rewrite Hq, Hq'; exact Hnext |].
    apply IH; [simpl; congruence | exact Hrest].
Qed.

Lemma chainedTo_nth (ps : list Pipe) (a : number) (i : nat) (p q : Pipe) :
  chainedTo ps a ->
  nth_error ps i = Some p -> nth_error ps (S i) = Some q ->
  x q == x p + 204.
Proof.
  revert i. induction ps as [| r rest IH]; intros i Hchain Hp Hq.
  - destruct i; discriminate.
  - destruct i as [| i].
    + destruct rest as [| r' rest']; simpl in *; [discriminate |].
      injection Hp as <-. injection Hq as <-. apply Hchain.
    + apply (IH i); [exact (chainedTo_tail r rest a Hchain) | exact Hp |
                     exact Hq].
Qed.

Lemma chainedTo_last (ps : list Pipe) (a : number) (p : Pipe) :
  chainedTo ps a ->
  nth_error ps (length ps - 1) = Some p ->
  x p + a == GAME_WIDTH.
Proof.
  induction ps as [| r [| r' rest] IH]; intros Hchain Hp.
  - discriminate.
  - simpl in *. injection Hp as <-. exact Hchain.
  - apply IH; [exact (chainedTo_tail r _ a Hchain) |].
    simpl in *. rewrite Nat.sub_0_r in *. exact Hp.
Qed.

Lemma spawn_due (a : number) :
  onLattice a -> 0 <= a <= 200 ->
  (200 < a + PIPE_SPEED <-> a == 200).
Proof.
  intros Hlat Hrange. unfold PIPE_SPEED. split; [| intros Ha; lra].
  intros Hdue. destruct Hrange as [_ Hhigh].
  assert (Hlow : 196 < a) by lra. clear Hdue.
  destruct Hlat as [j Hj]. rewrite Hj in *.
  change 196 with (inject_Z 196) in Hlow.
  change 200 with (inject_Z 200) in Hhigh.
  rewrite <- Zlt_Qlt in Hlow. rewrite <- Zle_Qle in Hhigh.
  replace j with 50%Z by lia. reflexivity.
Qed.

Lemma step_cadence (s t : Game) :
  step s t ->
  basic s ->
  onLattice (lastPipe s) /\ chainedTo (pipes s) (lastPipe s) ->
  onLattice (lastPipe t) /\ chainedTo (pipes t) (lastPipe t).
Proof.
  intros [u | random u _ | u] Hbasic [Hlat Hchain].
  - unfold jump. destruct (gameState u); simpl; auto.
  - unfold frame. destruct (gameState u); auto. simpl.
    pose proof (chainedTo_filter _ _ (chainedTo_move _ _ Hchain)) as Hkept.
    destruct (200 <? lastPipe u + PIPE_SPEED) eqn:Hdue.
    + split; [exact onLattice_origin |].
      apply ltb_lt in Hdue.
      apply (spawn_due _ Hlat (basic_lastPipe u Hbasic)) in Hdue.
      apply (chainedTo_snoc _ _ _ Hkept); [| reflexivity].
      rewrite Hdue. reflexivity.
    + split; [apply onLattice_advance; exact Hlat | exact Hkept].
  - rewrite evaluate_lastPipe. split; [exact Hlat |].
    apply (chainedTo_same_x (pipes u)); [apply evaluate_pipes_x | exact Hchain].
Qed.

Lemma reachable_cadence (s : Game) :
  reachable s ->
  onLattice (lastPipe s) /\ chainedTo (pipes s) (lastPipe s).
Proof.
  intros Hreach. pose proof Hreach as Hsteps. unfold reachable in Hsteps.
  remember initial as s0 eqn:Hs0.
  induction Hsteps as [s | s t u Hsteps IH Hstep]; subst.
  - split; [exact onLattice_origin | exact I].
  - apply (step_cadence t u Hstep).
    + apply reachable_basic. exact Hsteps.
    + apply IH; [exact Hsteps | reflexivity].
Qed.

(** X11.  Obstacles come at a fixed cadence.  In every state the component
    can reach the accumulator is a multiple of four between 0 and 200, a
    frame spawns exactly when it finds the accumulator at 200, the newest
    obstacle of the list is as far from the right edge of the playfield as
    the accumulator says, and each obstacle is exactly 204 pixels right of
    the one before it in the list. *)
Theorem pipes_come_every_204_pixels :
  forall (s : Game) (i : nat) (p q : Pipe),
    reachable s ->
    onLattice (lastPipe s) /\
    0 <= lastPipe s <= 200 /\
    (200 < lastPipe s + PIPE_SPEED <-> lastPipe s == 200) /\
    chainedTo (pipes s) (lastPipe s) /\
    (nth_error (pipes s) i = Some p ->
     nth_error (pipes s) (S i) = Some q ->
     x q == x p + 204) /\
    (nth_error (pipes s) (length (pipes s) - 1) = Some p ->
     x p + lastPipe s == GAME_WIDTH).
Proof.
  intros s i p q Hreach.
  destruct (reachable_cadence s Hreach) as [Hlat Hchain].
  pose proof (basic_lastPipe s (reachable_basic s Hreach)) as Hrange.
  split; [exact Hlat |]. split; [exact Hrange |].
  split; [apply spawn_due; assumption |].
  split; [exact Hchain |].
  split.
  - apply (chainedTo_nth (pipes s) (lastPipe s)). exact Hchain.
  - apply chainedTo_last. exact Hchain.
Qed.

Lemma pipes_come_every_204_pixels_witness :
  chainedTo (pipes (ceilingRun 153)) (lastPipe (ceilingRun 153)) /\
  lastPipe (ceilingRun 153) = 0.
Proof.
  split.
  - exact (proj1 (proj2 (proj2 (proj2
             (pipes_come_every_204_pixels (ceilingRun 153) 0
                (newPipe 0) (newPipe 0) (reachable_ceilingRun 153)))))).
  - vm_compute. reflexivity.
Defined.

(** ** What is drawn *)

Lemma reachable_inside (s : Game) :
  reachable s -> 0 <= birdY s <= GAME_HEIGHT - BIRD_SIZE.
Proof.
  unfold reachable. intros Hsteps.
  remember initial as s0 eqn:Hs0.
  induction Hsteps as [s | s t u _ IH Hstep]; subst.
  - exact playfield_center.
  - exact (step_keeps_bird_inside t u Hstep (IH eq_refl)).
Qed.

(** X12.  The gap drawn for an obstacle is the gap the collision effect
    tests: the top pipe is [gapY] high, the bottom pipe starts at
    [gapY + PIPE_GAP], the sum line 119 compares the bottom of the bird with,
    so that the vertical test of line 119 is the test that the box of the
    bird reaches into one of the two drawn pipes.  In a state the component
    can reach both pipes are between 75 and 345 pixels high, the bottom pipe
    starts at 525 at the latest, the two are drawn at the same [left],
    between [-PIPE_WIDTH] and [GAME_WIDTH], and three pairs at most are
    drawn. *)
Theorem drawn_pipes_leave_the_gap :
  forall (s : Game) (top : TopStyle) (bottom : BottomStyle),
    reachable s ->
    In (top, bottom) (pipeViews (render s)) ->
    topLeft top = bottomLeft bottom /\
    - PIPE_WIDTH < topLeft top <= GAME_WIDTH /\
    bottomTop bottom = topHeight top + PIPE_GAP /\
    75 <= topHeight top <= 345 /\
    bottomTop bottom <= 525 /\
    75 <= bottomHeight bottom <= 345 /\
    (length (pipeViews (render s)) <= 3)%nat /\
    exists pipe : Pipe,
      In pipe (pipes s) /\
      top = topStyle pipe /\ bottom = bottomStyle pipe /\
      forall y : number,
        outsideGap y pipe = true <->
        y < topHeight top \/ bottomTop bottom < y + BIRD_SIZE.
Proof.
  intros s top bottom Hreach Hin.
  simpl in Hin. apply in_map_iff in Hin.
  destruct Hin as (pipe & Hstyle & Hpipe).
  injection Hstyle as <- <-.
  pose proof (reachable_basic s Hreach) as Hbasic.
  destruct (basic_placed s Hbasic pipe Hpipe) as (Hroom & _ & Hgap).
  pose proof (basic_lastPipe s Hbasic) as Hlast.
  pose proof (proj1 (allOnScreen_In s) (reachable_allOnScreen s Hreach)
                pipe Hpipe) as Hon.
  simpl.
  split; [reflexivity |].
  split; [split; [exact Hon | lra] |].
  split; [reflexivity |].
  split; [exact Hgap |].
  split; [unfold PIPE_GAP; lra |].
  split; [unfold GAME_HEIGHT, PIPE_GAP; lra |].
  split.
  - rewrite length_map.
    apply spaced_bounded; [apply Hbasic |].
    intros p Hp.
    destruct (basic_placed s Hbasic p Hp) as (Hroom' & _).
    pose proof (proj1 (allOnScreen_In s) (reachable_allOnScreen s Hreach)
                  p Hp).
    split; [assumption | lra].
  - exists pipe.
    split; [exact Hpipe |]. split; [reflexivity |]. split; [reflexivity |].
    intros y. unfold outsideGap, birdTop, birdBottom.
    rewrite orb_true_iff, !ltb_lt. reflexivity.
Qed.

Lemma drawn_pipes_leave_the_gap_witness :
  bottomTop (bottomStyle overlapping) <= 525 /\
  75 <= bottomHeight (bottomStyle overlapping) <= 345.
Proof.
  destruct flight_log as (_ & Hpipes & _).
  assert (Hin : In (topStyle overlapping, bottomStyle overlapping)
                   (pipeViews (render flight150))).
  { unfold render, pipeViews. rewrite Hpipes. left. reflexivity. }
  destruct (drawn_pipes_leave_the_gap flight150 (topStyle overlapping)
              (bottomStyle overlapping)
              (played_reachable flight150 played_flight150) Hin)
    as (_ & _ & _ & _ & Hstart & Hhigh & _).
  exact (conj Hstart Hhigh).
Defined.

(** X13.  What is drawn of a state the component can reach: the bird at a
    [top] between 0 and [GAME_HEIGHT - BIRD_SIZE], turned by an angle between
    -30 and 90 degrees, a score that is not negative, and exactly one of the
    start overlay, the flapping cape and the death overlay, the container
    glitching with the last.  The death overlay prints the score shown in
    the score display, and in a played game this score is at most the best
    score shown beside it. *)
Theorem view_of_reachable_state :
  forall s : Game,
    reachable s ->
    0 <= birdTopPx (render s) <= GAME_HEIGHT - BIRD_SIZE /\
    -30 <= birdRotateDeg (render s) <= 90 /\
    (0 <= scoreValue (render s))%Z /\
    ((startOverlay (render s) = true /\ flapping (render s) = false /\
      deathOverlay (render s) = None /\ glitch (render s) = false) \/
     (startOverlay (render s) = false /\ flapping (render s) = true /\
      deathOverlay (render s) = None /\ glitch (render s) = false) \/
     (startOverlay (render s) = false /\ flapping (render s) = false /\
      deathOverlay (render s) = Some (scoreValue (render s)) /\
      glitch (render s) = true)) /\
    (played s ->
     forall n : Z,
       deathOverlay (render s) = Some n ->
       (0 <= n <= bestValue (render s))%Z).
Proof.
  intros s Hreach.
  split; [exact (reachable_inside s Hreach) |].
  split; [exact (reachable_rotation s Hreach) |].
  split; [exact (reachable_score s Hreach) |].
  split.
  - unfold render. simpl. destruct (gameState s); simpl; tauto.
  - intros Hplayed n Hshown.
    destruct (played_bestCovers s Hplayed) as (_ & _ & Hdead).
    pose proof (reachable_score s Hreach) as Hscore.
    unfold render in Hshown |- *. simpl in *.
    destruct (gameState s); simpl in Hshown; try discriminate.
    injection Hshown as <-. split; [exact Hscore | apply Hdead; reflexivity].
Qed.

Lemma view_of_reachable_state_witness :
  0 <= birdTopPx (render (jump initial)) <= GAME_HEIGHT - BIRD_SIZE.
Proof.
  assert (Hreach : reachable (jump initial))
    by (eapply steps_snoc; [apply steps_refl | apply step_jump]).
  exact (proj1 (view_of_reachable_state (jump initial) Hreach)).
Defined.

(** ** The height of a jump *)

(** A frame that does not clamp leaves [energy] as it is. *)
Lemma energy_frame (y v : number) :
  energy (y + v) (v + GRAVITY) == energy y v.
Proof. unfold energy, GRAVITY. ring. Qed.

(** The velocity never falls between 0.2 and 0.4: these are two consecutive
    values of the velocity after a jump. *)
Lemma velocityAfter_square (k : Z) :
  0 <= velocityAfter k * velocityAfter k
       - (6 # 10) * velocityAfter k + (8 # 100).
Proof.
  assert (Hz : (0 <= (k - 17) * (3 * k - 52))%Z)
    by (destruct (Z_le_gt_dec k 17); nia).
  rewrite Zle_Qle in Hz.
  rewrite inject_Z_mult in Hz.
  unfold Zminus in Hz. rewrite !inject_Z_plus, inject_Z_mult in Hz.
  change (inject_Z (-17)) with (-17) in Hz.
  change (inject_Z (-52)) with (-52) in Hz.
  change (inject_Z 3) with 3 in Hz.
  change (inject_Z 0) with 0 in Hz.
  unfold velocityAfter, JUMP_FORCE, GRAVITY.
  set (K := inject_Z k) in *. clearbody K.
  assert (Heq : (-10 + (6 # 10) * K) * (-10 + (6 # 10) * K)
                - (6 # 10) * (-10 + (6 # 10) * K) + (8 # 100)
                == (12 # 100) * ((K + -17) * (3 * K + -52))) by ring.
  rewrite Heq. apply Qmult_le_0_compat; [lra | exact Hz].
Qed.

Lemma rising_frame (y0 random : number) (t : Game) :
  rising y0 t -> rising y0 (frame random t).
Proof.
  intros [Hplay Hinside [k Hk] Henergy].
  rewrite (frame_playing random t Hplay).
  constructor; simpl.
  - exact Hplay.
  - apply clamp_bounds. unfold GAME_HEIGHT, BIRD_SIZE. lra.
  - exists (k + 1)%Z. rewrite Hk. unfold velocityAfter.
    rewrite inject_Z_plus. change (inject_Z 1) with 1. ring.
  - pose proof (energy_frame (birdY t) (birdVelocity t)) as Hkeep.
    unfold energy, GRAVITY, GAME_HEIGHT, BIRD_SIZE, JUMP_FORCE in *.
    generalize (Q.max_spec 0 (Qmin (600 - 50) (birdY t + birdVelocity t)))
               (Q.min_spec (600 - 50) (birdY t + birdVelocity t)).
    set (m := Qmin (600 - 50) (birdY t + birdVelocity t)).
    set (M := Qmax 0 m). clearbody M. clearbody m.
    set (y := birdY t) in *. set (v := birdVelocity t) in *.
    clearbody y v.
    intros [[Hlt HM] | [Hle HM]] [[Hlt' Hm] | [Hle' Hm]];
      destruct Henergy as [Hfirst | [Hfloor Hdown]];
      try (right; split; lra);
      try (left; rewrite HM; nra);
      try (left; rewrite HM, Hm; nra).
Qed.

Lemma rising_frames (y0 : number) (randoms : list number) (t : Game) :
  rising y0 t -> rising y0 (frames randoms t).
Proof.
  intros Hrising.
  induction randoms as [| random randoms IH] using rev_ind; [exact Hrising |].
  rewrite frames_snoc. apply rising_frame. exact IH.
Qed.

Lemma rising_height (y0 : number) (t : Game) :
  y0 <= GAME_HEIGHT - BIRD_SIZE ->
  rising y0 t -> y0 - (884 # 10) <= birdY t.
Proof.
  intros Hy0 [_ Hinside [k Hk] [Henergy | [Hfloor _]]]; [| lra].
  pose proof (velocityAfter_square k) as Hsquare.
  unfold energy, JUMP_FORCE in Henergy. rewrite Hk in Henergy.
  set (w := velocityAfter k) in *. clearbody w.
  set (y := birdY t) in *. clearbody y.
  nra.
Qed.

(** X14.  A jump lifts the bird by less than 89 pixels: from a state the
    component can reach, outside the [dead] phase, after a key press or
    click and any number of frames with no further key press or click, the
    bird is always less than 89 pixels above the height it jumped from. *)
Theorem jump_lifts_less_than_89 :
  forall (randoms : list number) (s : Game),
    reachable s ->
    gameState s <> dead ->
    birdY s - 89 < birdY (frames randoms (jump s)).
Proof.
  intros randoms s Hreach Hnot.
  pose proof (reachable_inside s Hreach) as Hinside.
  assert (Hlift : birdY s - (884 # 10) <= birdY (frames randoms (jump s))).
  { apply rising_height; [apply Hinside |].
    apply rising_frames.
    assert (Hfacts : gameState (jump s) = playing /\
                     birdVelocity (jump s) = JUMP_FORCE /\
                     birdY (jump s) = birdY s).
    { unfold jump. destruct (gameState s); simpl; try congruence; auto. }
    destruct Hfacts as (Hplay & Hv & Hy).
    constructor; rewrite ?Hv, ?Hy.
    - exact Hplay.
    - exact Hinside.
    - exists 0%Z. unfold velocityAfter. change (inject_Z 0) with 0. ring.
    - left. apply Qle_refl. }
  lra.
Qed.

(** Seventeen frames after the first jump the bird is more than 88 pixels
    above the height it jumped from. *)
Lemma jump_lifts_less_than_89_witness :
  birdY initial - 89 < birdY (frames (repeat 0 17) (jump initial)) /\
  birdY (frames (repeat 0 17) (jump initial)) < birdY initial - 88.
Proof.
  split.
  - apply (jump_lifts_less_than_89 (repeat 0 17) initial).
    + apply steps_refl.
    + discriminate.
  - vm_compute. reflexivity.
Defined.
